(** * The cloze plugin (packages/plugin-cloze/src/index.ts)

    A shallow embedding of the plugin's template parser ([getSolutions]),
    its rendering and submit handler ([trial], [check]) and its simulated
    responder ([simulate], [create_simulation_data], [simulate_visual]),
    with the properties its specification states about them.

    Conventions of the model.
    - A JavaScript string is a [string]: a sequence of 8-bit characters, read
      as the code units U+0000..U+00FF.  On such strings [toLowerCase] folds
      'A'..'Z' and the upper-case letters U+00C0..U+00DE (bar U+00D7), and
      [trim] strips the white space U+0009..U+000D, U+0020 and U+00A0, as
      the built-ins of the language do.
    - A JavaScript number is a double: a [spec_float] of 53 binary places
      and exponents up to 1024, multiplied and added with the rounding of
      IEEE 754 ([SFmul], [SFadd]).
    - The page is a [World]: the nodes of the cloze [div] as the HTML parser
      reads them off the markup that [trial] writes, the text fields found
      under the ids input0, input1, ... (their [value] and their
      [style.color]), the focused field, and the trace of the calls made to
      the host (mistake_fn, finishTrial, load_callback, fillTextInput,
      clickTarget).
    - The markup is read by [Html.read]: text, the inputs of the blanks, and,
      in the literal segments of the template, the tags of a few elements of
      phrasing content, with a [title] in single quotes or without
      attribute.  Markup beyond that (other tags and attributes, character
      references, elements left open) is not read: the statement that
      assigns it ends as [Unmodelled].
    - A statement that throws (a property read on [null]) is [Throw].
    - The host's random services are streams indexed by the number of the
      call. *)

From Stdlib Require Import Ascii String ZArith QArith Qpower Lia Lqa ZifyNat.
From Stdlib Require Import SpecFloat.
From stdpp Require Import base list strings.

Local Open Scope nat_scope.
Local Open Scope string_scope.

(** ** Strings and numbers *)

Module Js.

Definition code (c : ascii) : nat := nat_of_ascii c.

(** White space as [String.prototype.trim] sees it, below U+0100. *)
Definition is_space (c : ascii) : bool :=
  let n := code c in
  (((9 <=? n) && (n <=? 13)) || (n =? 32) || (n =? 160))%nat.

Definition is_upper (c : ascii) : bool :=
  let n := code c in
  (((65 <=? n) && (n <=? 90))
   || ((192 <=? n) && (n <=? 222) && negb (n =? 215)))%nat.

Definition lower_char (c : ascii) : ascii :=
  if is_upper c then ascii_of_nat (code c + 32) else c.

Fixpoint toLowerCase (s : string) : string :=
  match s with
  | EmptyString => EmptyString
  | String c s' => String (lower_char c) (toLowerCase s')
  end.

Fixpoint trimStart (s : string) : string :=
  match s with
  | EmptyString => EmptyString
  | String c s' => if is_space c then trimStart s' else s
  end.

Fixpoint trimEnd (s : string) : string :=
  match s with
  | EmptyString => EmptyString
  | String c s' =>
      match trimEnd s' with
      | EmptyString => if is_space c then EmptyString else String c EmptyString
      | r => String c r
      end
  end.

Definition trim (s : string) : string := trimEnd (trimStart s).

(** [s.split(sep)] for a separator of one character: the pieces between
    the occurrences of [sep], one more than there are occurrences. *)
Fixpoint split (sep : ascii) (s : string) : list string :=
  match s with
  | EmptyString => [EmptyString]
  | String c s' =>
      if Ascii.eqb c sep then EmptyString :: split sep s'
      else match split sep s' with
           | piece :: pieces => String c piece :: pieces
           | [] => [String c EmptyString]
           end
  end.

(** Number of occurrences of a character. *)
Fixpoint occurrences (sep : ascii) (s : string) : nat :=
  match s with
  | EmptyString => 0
  | String c s' => (if Ascii.eqb c sep then 1 else 0) + occurrences sep s'
  end.

(** [xs.includes(x)] on an array of strings. *)
Definition includes (xs : list string) (x : string) : bool :=
  existsb (String.eqb x) xs.

(** A number: a double. *)
Definition number : Type := spec_float.

(** The length of an array, as a number. *)
Definition of_length (n : nat) : number :=
  binary_normalize 53 1024 (Z.of_nat n) 0 false.

(** [x * y] and [x + y], rounded to the nearest double, ties to even. *)
Definition times (x y : number) : number := SFmul 53 1024 x y.
Definition plus (x y : number) : number := SFadd 53 1024 x y.

(** [Math.floor(x)] as the index of an array: no index when [x] is
    negative, infinite or not a number, for which [xs[Math.floor(x)]] is
    [undefined] whatever the array. *)
Definition floor_index (x : number) : option nat :=
  match x with
  | S754_zero _ => Some 0
  | S754_finite false m e => Some (Z.to_nat (Z.shiftl (Zpos m) e))
  | _ => None
  end.

(** The numbers that [Math.random] returns: the doubles [0 <= r < 1]. *)
Definition unit_number (r : number) : bool :=
  valid_binary 53 1024 r && SFleb (S754_zero false) r
  && SFltb r (SFone 53 1024).

End Js.

Definition marker : ascii := "%"%char.
Definition separator : ascii := "/"%char.

(** ** The template parser *)

(** [case_sensitive ? e.trim().split("/") : e.toLowerCase().trim().split("/")] *)
Definition alternatives (case_sensitive : bool) (element : string) : list string :=
  if case_sensitive then Js.split separator (Js.trim element)
  else Js.split separator (Js.trim (Js.toLowerCase element)).

(** The loop [for (let i = 1; i < elements.length; i += 2)] of
    [getSolutions], run over the elements from index [i] on: the elements
    at the odd indices are pushed, the others are stepped over. *)
Fixpoint getSolutions_from (i : nat) (case_sensitive : bool)
    (elements : list string) : list (list string) :=
  match elements with
  | [] => []
  | element :: rest =>
      if Nat.odd i
      then alternatives case_sensitive element
             :: getSolutions_from (S i) case_sensitive rest
      else getSolutions_from (S i) case_sensitive rest
  end.

Definition getSolutions (text : string) (case_sensitive : bool)
    : list (list string) :=
  let elements := Js.split marker text in
  getSolutions_from 0 case_sensitive elements.

(** ** The trial configuration and the page *)

(** The parameters of a trial ([info.parameters]); [mistake_fn], a
    callback of the host, is seen through its calls. *)
Record Trial := {
  text : string;
  button_text : string;
  check_answers : bool;
  allow_blanks : bool;
  case_sensitivity : bool;
  autofocus : bool;
}.

(** The defaults of [info.parameters]. *)
Definition default_trial (template : string) : Trial :=
  {| text := template;
     button_text := "OK";
     check_answers := false;
     allow_blanks := true;
     case_sensitivity := true;
     autofocus := true |}.

(** A trial with two blanks whose answers are checked. *)
Definition checked_example : Trial :=
  {| text := "A %b% c %d%.";
     button_text := "OK";
     check_answers := true;
     allow_blanks := true;
     case_sensitivity := true;
     autofocus := true |}.


(** A trial whose blank lists two alternatives, checked without regard
    to case. *)
Definition case_example : Trial :=
  {| text := "This is a %Cloze/jsPsych% text.";
     button_text := "OK";
     check_answers := true;
     allow_blanks := true;
     case_sensitivity := false;
     autofocus := true |}.

(** A text field: [field.value] and [field.style.color]. *)
Record Field := { value : string; color : string }.

Definition fresh_field : Field := {| value := ""; color := "" |}.

(** The markup that [trial] writes between the tags of the cloze [div],
    piece by piece: an element of the split template, as it is, or the tag
    [<input type=text id=input<k> value=>] of the blank [k], quoted as in
    the source. *)
Inductive Piece :=
| Markup (s : string)
| InputTag (solution_counter : nat).

(** What the cloze [div] holds, in document order: a text, the input with
    the id [input<id>], and the start and the end of an element that the
    template declares. *)
Inductive Node :=
| Literal (s : string)
| TextInput (id : nat)
| ElementStart (tag : string)
| ElementEnd (tag : string).

(** ** The markup, as the page reads it *)

Module Html.

(** The characters that plain text is free of: the start of a tag [<],
    the start of a character reference [&], and U+0000 and U+000D, which
    the parser drops or replaces. *)
Definition is_special (c : ascii) : bool :=
  let n := Js.code c in
  ((n =? 60) || (n =? 38) || (n =? 0) || (n =? 13))%nat.

Fixpoint plain (s : string) : bool :=
  match s with
  | EmptyString => true
  | String c s' => negb (is_special c) && plain s'
  end.

Definition is_lower_letter (c : ascii) : bool :=
  let n := Js.code c in ((97 <=? n) && (n <=? 122))%nat.

(** The elements that are read: phrasing content that the parser inserts
    where it stands and closes at its end tag. *)
Definition known_tags : list string := ["b"; "i"; "u"; "em"; "strong"; "span"].

(** The states of the tokenizer that the markup read goes through. *)
Inductive Mode :=
| Data
| TagOpen
| TagName (name : string)
| AttributeName (name seen : string)
| AttributeValue (name : string)
| AfterAttributeValue (name : string)
| EndTagOpen
| EndTagName (name : string).

Record Reader := {
  mode : Mode;
  run : string;                  (* the text read since the last node *)
  open_elements : list string;   (* the elements not closed yet, last first *)
  nodes : list Node;             (* the nodes read so far *)
}.

Definition start : Reader :=
  {| mode := Data; run := ""; open_elements := []; nodes := [] |}.

Definition snoc (s : string) (c : ascii) : string := s +:+ String c EmptyString.

Definition with_mode (m : Mode) (r : Reader) : Reader :=
  {| mode := m; run := run r; open_elements := open_elements r;
     nodes := nodes r |}.

(** The nodes, with the pending text as their last: no text node is made
    of no character. *)
Definition flush (r : Reader) : list Node :=
  match run r with
  | EmptyString => nodes r
  | s => (nodes r ++ [Literal s])%list
  end.

Definition start_tag (name : string) (r : Reader) : option Reader :=
  if existsb (String.eqb name) known_tags
  then Some {| mode := Data; run := "";
               open_elements := name :: open_elements r;
               nodes := (flush r ++ [ElementStart name])%list |}
  else None.

(** An end tag is read when it closes the current element. *)
Definition end_tag (name : string) (r : Reader) : option Reader :=
  match open_elements r with
  | current :: rest =>
      if String.eqb current name
      then Some {| mode := Data; run := ""; open_elements := rest;
                   nodes := (flush r ++ [ElementEnd name])%list |}
      else None
  | [] => None
  end.

(** One character of a literal segment. *)
Definition read_char (c : ascii) (r : Reader) : option Reader :=
  match mode r with
  | Data =>
      if Ascii.eqb c "<" then Some (with_mode TagOpen r)
      else if is_special c then None
      else Some {| mode := Data; run := snoc (run r) c;
                   open_elements := open_elements r; nodes := nodes r |}
  | TagOpen =>
      if Ascii.eqb c "/" then Some (with_mode EndTagOpen r)
      else if is_lower_letter c
      then Some (with_mode (TagName (String c EmptyString)) r)
      else None
  | TagName name =>
      if is_lower_letter c then Some (with_mode (TagName (snoc name c)) r)
      else if Ascii.eqb c ">" then start_tag name r
      else if Ascii.eqb c " " then Some (with_mode (AttributeName name "") r)
      else None
  | AttributeName name seen =>
      if String.eqb (snoc seen c) "title='"
      then Some (with_mode (AttributeValue name) r)
      else if String.prefix (snoc seen c) "title='"
      then Some (with_mode (AttributeName name (snoc seen c)) r)
      else None
  | AttributeValue name =>
      if Ascii.eqb c "'" then Some (with_mode (AfterAttributeValue name) r)
      else if is_special c && negb (Ascii.eqb c "<") then None
      else Some r
  | AfterAttributeValue name =>
      if Ascii.eqb c ">" then start_tag name r else None
  | EndTagOpen =>
      if is_lower_letter c
      then Some (with_mode (EndTagName (String c EmptyString)) r)
      else None
  | EndTagName name =>
      if is_lower_letter c then Some (with_mode (EndTagName (snoc name c)) r)
      else if Ascii.eqb c ">" then end_tag name r
      else None
  end.

Fixpoint read_string (s : string) (r : Reader) : option Reader :=
  match s with
  | EmptyString => Some r
  | String c s' =>
      match read_char c r with
      | Some r' => read_string s' r'
      | None => None
      end
  end.

(** The tag of an input: between tags it makes the input; in the value
    of an attribute in single quotes, which none of its characters ends,
    it is part of the value. *)
Definition read_input (k : nat) (r : Reader) : option Reader :=
  match mode r with
  | Data => Some {| mode := Data; run := "";
                    open_elements := open_elements r;
                    nodes := (flush r ++ [TextInput k])%list |}
  | AttributeValue name => Some r
  | _ => None
  end.

Fixpoint read_pieces (html : list Piece) (r : Reader) : option Reader :=
  match html with
  | [] => Some r
  | Markup s :: rest =>
      match read_string s r with
      | Some r' => read_pieces rest r'
      | None => None
      end
  | InputTag k :: rest =>
      match read_input k r with
      | Some r' => read_pieces rest r'
      | None => None
      end
  end.

(** The nodes of the cloze [div] whose content is [html], as the end tag
    of the [div] finds them: no tag half read, no element left open. *)
Definition read (html : list Piece) : option (list Node) :=
  match read_pieces html start with
  | Some r =>
      match mode r, open_elements r with
      | Data, [] => Some (flush r)
      | _, _ => None
      end
  | None => None
  end.

(** The value sanitization of a text input: line breaks are stripped
    from what is assigned to [value]. *)
Definition is_newline (c : ascii) : bool :=
  ((Js.code c =? 10) || (Js.code c =? 13))%nat.

Fixpoint strip_newlines (s : string) : string :=
  match s with
  | EmptyString => EmptyString
  | String c s' =>
      if is_newline c then strip_newlines s'
      else String c (strip_newlines s')
  end.

End Html.

(** [trial_data], the payload of [finishTrial]. *)
Record TrialData := { response : list string }.

(** Calls to the host, in the order they are made; [input] is the index
    of the input in [querySelectorAll('input[type=text]')]. *)
Inductive Call :=
| mistake_fn
| finishTrial (data : TrialData)
| load_callback
| fillTextInput (input : nat) (answer : string) (delay : Js.number)
| clickTarget (delay : Js.number).

Record World := {
  display : list Node;          (* the cloze div of the display element *)
  button : option string;       (* #finish_cloze_button and its label *)
  inputs : list Field;          (* the element with id input<i>, at i, for
                                   the ids up to the first that is missing *)
  focused : option nat;         (* the input holding the focus *)
  calls : list Call;            (* the calls made to the host so far *)
  words_drawn : nat;            (* calls to randomization.randomWords *)
  randoms_drawn : nat;          (* calls to Math.random *)
  delays_drawn : nat;           (* calls to randomization.sampleExGaussian *)
}.

Definition empty_world : World :=
  {| display := []; button := None; inputs := []; focused := None;
     calls := []; words_drawn := 0; randoms_drawn := 0; delays_drawn := 0 |}.

(** ** Statements: a state monad over the page, with exceptions *)

Inductive result (A : Type) :=
| Ok (a : A) (w : World)
| Throw (w : World)             (* a TypeError, with the page as it was left *)
| Unmodelled (w : World).       (* markup that is not read, assigned on [w] *)
Arguments Ok {A} a w.
Arguments Throw {A} w.
Arguments Unmodelled {A} w.

Definition M (A : Type) : Type := World -> result A.

#[global] Instance M_ret : MRet M := fun A a w => Ok a w.
#[global] Instance M_bind : MBind M := fun A B f m w =>
  match m w with
  | Ok a w' => f a w'
  | Throw w' => Throw w'
  | Unmodelled w' => Unmodelled w'
  end.

Definition modify (f : World -> World) : M unit := fun w => Ok tt (f w).

Definition set_calls (cs : list Call) (w : World) : World :=
  {| display := display w; button := button w; inputs := inputs w;
     focused := focused w; calls := cs;
     words_drawn := words_drawn w; randoms_drawn := randoms_drawn w;
     delays_drawn := delays_drawn w |}.

Definition set_inputs (fs : list Field) (w : World) : World :=
  {| display := display w; button := button w; inputs := fs;
     focused := focused w; calls := calls w;
     words_drawn := words_drawn w; randoms_drawn := randoms_drawn w;
     delays_drawn := delays_drawn w |}.

(** A call to the host, added to the trace. *)
Definition call (c : Call) : M unit :=
  modify (fun w => set_calls (calls w ++ [c]) w).

(** [document.getElementById("input" + i).value]; the read throws when no
    element has the id. *)
Definition field_value (i : nat) : M string := fun w =>
  match inputs w !! i with
  | Some field => Ok (value field) w
  | None => Throw w
  end.

(** [field.style.color = c], for the field with id [input<i>]. *)
Definition set_color (i : nat) (c : string) : M unit := fun w =>
  match inputs w !! i with
  | Some field =>
      Ok tt (set_inputs (<[i := {| value := value field; color := c |}]> (inputs w)) w)
  | None => Throw w
  end.

(** [field.value = v]: what the participant (or fillTextInput) types. *)
Definition type_into (i : nat) (v : string) (w : World) : World :=
  match inputs w !! i with
  | Some field =>
      set_inputs (<[i := {| value := Html.strip_newlines v;
                            color := color field |}]> (inputs w)) w
  | None => w
  end.

(** [display_element.querySelector("#input0").focus()] *)
Definition focus_first_input : M unit := fun w =>
  match inputs w !! 0 with
  | Some _ =>
      Ok tt {| display := display w; button := button w; inputs := inputs w;
               focused := Some 0; calls := calls w;
               words_drawn := words_drawn w; randoms_drawn := randoms_drawn w;
               delays_drawn := delays_drawn w |}
  | None => Throw w
  end.

(** ** Rendering and the submit handler *)

(** The loop of [trial] over [elements], from index [i] on, and what it
    adds to [html]: the elements at even indices as they are, and for the
    others the tags of the inputs, numbered by [solution_counter]. *)
Fixpoint render_from (i solution_counter : nat) (elements : list string)
    : list Piece :=
  match elements with
  | [] => []
  | element :: rest =>
      if Nat.even i
      then Markup element :: render_from (S i) solution_counter rest
      else InputTag solution_counter
             :: render_from (S i) (S solution_counter) rest
  end.

Definition is_input (n : Node) : bool :=
  match n with TextInput _ => true | _ => false end.

(** The text-entry controls of a rendered surface. *)
Definition text_inputs (nodes : list Node) : list Node := filter is_input nodes.

Definition has_id (i : nat) (n : Node) : bool :=
  match n with TextInput id => Nat.eqb id i | _ => false end.

(** The fields that [getElementById] finds under the ids [input<i>],
    [input<i+1>], ..., up to the first of these ids that no element has:
    [check] and the focus go through the ids in this order and throw at
    the first that is missing.  There are no more ids than nodes. *)
Fixpoint fields_from (fuel i : nat) (nodes : list Node) : list Field :=
  match fuel with
  | 0 => []
  | S fuel' =>
      if existsb (has_id i) nodes
      then fresh_field :: fields_from fuel' (S i) nodes
      else []
  end.

Definition fields_of (nodes : list Node) : list Field :=
  fields_from (length nodes) 0 nodes.

(** [display_element.innerHTML = '<div class=cloze>' + html + '</div>']:
    the page holds the nodes read off the markup, and a fresh field per
    input. *)
Definition set_innerHTML (html : list Piece) : M unit := fun w =>
  match Html.read html with
  | Some nodes =>
      Ok tt {| display := nodes; button := None;
               inputs := fields_of nodes;
               focused := None; calls := calls w;
               words_drawn := words_drawn w; randoms_drawn := randoms_drawn w;
               delays_drawn := delays_drawn w |}
  | None => Unmodelled w
  end.

(** [display_element.innerHTML += '<br><button ...>' + label + '</button>']:
    the page is written out and read again, which gives the nodes it had,
    with fresh fields for the inputs, and the button, whose label is read
    as plain text. *)
Definition append_button (label : string) : M unit := fun w =>
  if Html.plain label
  then Ok tt {| display := display w; button := Some label;
                inputs := fields_of (display w);
                focused := None; calls := calls w;
                words_drawn := words_drawn w; randoms_drawn := randoms_drawn w;
                delays_drawn := delays_drawn w |}
  else Unmodelled w.

(** The local variables of [check]. *)
Record Locals := {
  answers : list string;
  answers_correct : bool;
  answers_filled : bool;
}.

(** [trial.case_sensitivity ? v.trim() : v.toLowerCase().trim()] *)
Definition normalize (t : Trial) (v : string) : string :=
  if case_sensitivity t then Js.trim v else Js.trim (Js.toLowerCase v).

(** The loop of [check] over [solutions], from index [i] on; [solution] is
    [solutions[i]] and [answer] is [answers[i]], the answer just pushed. *)
Fixpoint check_from (t : Trial) (i : nat) (solutions : list (list string))
    (l : Locals) : M Locals :=
  match solutions with
  | [] => mret l
  | solution :: rest =>
      v ← field_value i;
      let answer := normalize t v in
      correct ←
        (if check_answers t then
           if negb (Js.includes solution answer)
           then set_color i "red";; mret false
           else set_color i "black";; mret (answers_correct l)
         else mret (answers_correct l));
      let filled :=
        if negb (allow_blanks t) then
          if String.eqb answer "" then false else answers_filled l
        else answers_filled l in
      check_from t (S i) rest
        {| answers := answers l ++ [answer];
           answers_correct := correct;
           answers_filled := filled |}
  end.

(** [check], the listener of the button, closed over [trial] and
    [solutions]. *)
Definition check (t : Trial) (solutions : list (list string)) : M unit :=
  l ← check_from t 0 solutions
        {| answers := []; answers_correct := true; answers_filled := true |};
  if (check_answers t && negb (answers_correct l))
     || (negb (allow_blanks t) && negb (answers_filled l))
  then call mistake_fn
  else call (finishTrial {| response := answers l |}).

(** [trial(display_element, trial)] *)
Definition trial (t : Trial) : M unit :=
  let elements := Js.split marker (text t) in
  set_innerHTML (render_from 0 0 elements);;
  append_button (button_text t);;
  if autofocus t then focus_first_input else mret tt.

(** One activation of the button of the trial [t]: the listener that
    [trial t] registers, with the solutions it computed. *)
Definition submit (t : Trial) : M unit :=
  check t (getSolutions (text t) (case_sensitivity t)).

(** ** The simulated responder *)

Inductive SimulationMode := data_only | visual | other_mode.

Section Simulation.

(** The services of the host: the [k]-th call of
    [randomization.randomWords({exactly: 1})] returns [[randomWords k]],
    the [k]-th call of [Math.random()] returns [random k], and the [k]-th
    call of [randomization.sampleExGaussian(750, 200, 0.01, true)]
    returns [sampleExGaussian k]. *)
Variable randomWords : nat -> string.
Variable random : nat -> Js.number.
Variable sampleExGaussian : nat -> Js.number.

(** [pluginAPI.mergeSimulationData], of the host, and the simulation
    options it reads. *)
Variable SimulationOptions : Type.
Variable mergeSimulationData : TrialData -> SimulationOptions -> TrialData.

Definition draw_word : M string := fun w =>
  Ok (randomWords (words_drawn w))
     {| display := display w; button := button w; inputs := inputs w;
        focused := focused w; calls := calls w;
        words_drawn := S (words_drawn w); randoms_drawn := randoms_drawn w;
        delays_drawn := delays_drawn w |}.

Definition draw_random : M Js.number := fun w =>
  Ok (random (randoms_drawn w))
     {| display := display w; button := button w; inputs := inputs w;
        focused := focused w; calls := calls w;
        words_drawn := words_drawn w; randoms_drawn := S (randoms_drawn w);
        delays_drawn := delays_drawn w |}.

Definition draw_delay : M Js.number := fun w =>
  Ok (sampleExGaussian (delays_drawn w))
     {| display := display w; button := button w; inputs := inputs w;
        focused := focused w; calls := calls w;
        words_drawn := words_drawn w; randoms_drawn := randoms_drawn w;
        delays_drawn := S (delays_drawn w) |}.

(** [Math.floor(r * wordList.length)] *)
Definition pick_index (wordList : list string) (r : Js.number) : option nat :=
  Js.floor_index (Js.times r (Js.of_length (length wordList))).

(** [wordList[Math.floor(r * wordList.length)]]; the index is one of the
    list for the numbers that [Math.random] returns, and [undefined], which
    is out of reach, is read as the empty string. *)
Definition pick (wordList : list string) (r : Js.number) : string :=
  default "" (pick_index wordList r ≫= (wordList !!.)).

(** The body of the loop of [create_simulation_data]: the response to
    one blank. *)
Definition simulate_blank (wordList : list string) : M string :=
  if Js.includes wordList ""
  then draw_word
  else r ← draw_random; mret (pick wordList r).

Fixpoint simulate_responses (solutions : list (list string))
    (responses : list string) : M (list string) :=
  match solutions with
  | [] => mret responses
  | wordList :: rest =>
      word ← simulate_blank wordList;
      simulate_responses rest (responses ++ [word])
  end.

Definition create_simulation_data (t : Trial) (simulation_options : SimulationOptions)
    : M TrialData :=
  let solutions := getSolutions (text t) (case_sensitivity t) in
  responses ← simulate_responses solutions [];
  let default_data := {| response := responses |} in
  mret (mergeSimulationData default_data simulation_options).

Definition simulate_data_only (t : Trial) (simulation_options : SimulationOptions)
    : M unit :=
  data ← create_simulation_data t simulation_options;
  call (finishTrial data).

(** The loop of [simulate_visual] over [data.response], from index [i]
    on; the result is [rt] after the loop. *)
Fixpoint fill_from (i : nat) (responses : list string) (rt : Js.number)
    : M Js.number :=
  match responses with
  | [] => mret rt
  | answer :: rest =>
      call (fillTextInput i answer rt);;
      delay ← draw_delay;
      fill_from (S i) rest (Js.plus rt delay)
  end.

Definition simulate_visual (t : Trial) (simulation_options : SimulationOptions)
    : M unit :=
  data ← create_simulation_data t simulation_options;
  trial t;;
  call load_callback;;
  rt ← draw_delay;
  rt ← fill_from 0 (response data) rt;
  call (clickTarget rt).

Definition simulate (t : Trial) (simulation_mode : SimulationMode)
    (simulation_options : SimulationOptions) : M unit :=
  (match simulation_mode with
   | data_only => call load_callback;; simulate_data_only t simulation_options
   | _ => mret tt
   end);;
  (match simulation_mode with
   | visual => simulate_visual t simulation_options
   | _ => mret tt
   end).

End Simulation.

(** ** Notions used by the statements *)

(** The page a computation leaves, thrown or not. *)
Definition world_of {A : Type} (r : result A) : World :=
  match r with Ok _ w => w | Throw w => w | Unmodelled w => w end.

(** A template and a button label of plain text: no tag and no character
    reference. *)
Definition plain_template (t : Trial) : bool :=
  Html.plain (text t) && Html.plain (button_text t).

(** The text node of a literal element of plain text. *)
Definition text_node (element : string) : list Node :=
  match element with
  | EmptyString => []
  | _ => [Literal element]
  end.

(** The nodes of a template of plain text, from the element [i] on: the
    elements at the even indices as text, and in the place of the others
    the inputs, numbered from [c] on. *)
Fixpoint surface_from (i c : nat) (elements : list string) : list Node :=
  match elements with
  | [] => []
  | element :: rest =>
      if Nat.even i
      then (text_node element ++ surface_from (S i) c rest)%list
      else TextInput c :: surface_from (S i) (S c) rest
  end.

(** The answers [check] reads off the fields. *)
Definition answers_of (t : Trial) (fields : list Field) : list string :=
  (fun field => normalize t (value field)) <$> fields.

(** The correctness gate: every answer is included in the solutions of
    its blank. *)
Definition gate_correct (solutions : list (list string)) (given : list string)
    : bool :=
  forallb (fun p => Js.includes p.1 p.2) (zip solutions given).

(** The completeness gate: no answer is the empty string. *)
Definition gate_filled (given : list string) : bool :=
  forallb (fun a => negb (String.eqb a "")) given.

(** Some answer is not among the accepted answers of its blank. *)
Definition some_answer_wrong (solutions : list (list string))
    (given : list string) : Prop :=
  exists i solution a,
    solutions !! i = Some solution /\ given !! i = Some a /\ a ∉ solution.

(** Some answer is empty. *)
Definition some_answer_empty (given : list string) : Prop := "" ∈ given.

(** The condition under which [check] calls [mistake_fn]. *)
Definition gates_fail (t : Trial) (solutions : list (list string))
    (given : list string) : bool :=
  (check_answers t && negb (gate_correct solutions given))
  || (negb (allow_blanks t) && negb (gate_filled given)).

(** The field as the correctness gate leaves it. *)
Definition flag (t : Trial) (solution : list string) (field : Field) : Field :=
  {| value := value field;
     color := if Js.includes solution (normalize t (value field))
              then "black" else "red" |}.

(** The fields after the correctness gate went over the blanks from
    index [i] on. *)
Fixpoint flag_from (t : Trial) (i : nat) (solutions : list (list string))
    (fields : list Field) : list Field :=
  match solutions with
  | [] => fields
  | solution :: rest => flag_from t (S i) rest (alter (flag t solution) i fields)
  end.


(** The page but for the counters of the random services: what drawing
    a word or a number leaves as it was. *)
Definition same_page (w w' : World) : Prop :=
  display w' = display w /\ button w' = button w /\ inputs w' = inputs w
  /\ focused w' = focused w /\ calls w' = calls w
  /\ delays_drawn w' = delays_drawn w.

(** A response of the simulated responder to a blank: a word of the word
    service when the accepted answers include the empty string, one of the
    accepted answers, picked by a draw of [Math.random], when not. *)
Definition simulated_answer (randomWords : nat -> string)
    (random : nat -> Js.number)
    (wordList : list string) (a : string) : Prop :=
  if Js.includes wordList ""
  then exists k, a = randomWords k
  else exists k, a = pick wordList (random k).

(** The services used in the examples: the word ["filler"], the draw
    [0.75], and delays of 750, 751, 752, ... *)
Definition example_words (k : nat) : string := "filler".
Definition example_random (k : nat) : Js.number :=
  binary_normalize 53 1024 3 (-2) false.
Definition example_delays (k : nat) : Js.number := Js.of_length (750 + k).
Definition example_merge (d : TrialData) (o : unit) : TrialData := d.

(** The draw [0]. *)
Definition zero_random (k : nat) : Js.number := S754_zero false.



(** The trial [t] with its case sensitivity turned off. *)
Definition insensitive (t : Trial) : Trial :=
  {| text := text t;
     button_text := button_text t;
     check_answers := check_answers t;
     allow_blanks := allow_blanks t;
     case_sensitivity := false;
     autofocus := autofocus t |}.

(** A string of white space only. *)
Fixpoint all_space (s : string) : bool :=
  match s with
  | EmptyString => true
  | String c s' => Js.is_space c && all_space s'
  end.

(** What is typed before a submit: values, each for the field of an
    index; the first pair of the list is typed last. *)
Definition type_all (typed : list (nat * string)) (w : World) : World :=
  foldr (fun p => type_into p.1 p.2) w typed.

(** The blanks to which the simulated responder answers by a word of the
    word service. *)
Definition free_blanks (solutions : list (list string)) : list (list string) :=
  filter (fun wordList => Js.includes wordList "") solutions.









(** A template whose only blank stands in the value of an attribute,
    rendered without focus. *)
Definition quiet_title_example : Trial :=
  {| text := "<b title='%x%'>t</b>";
     button_text := "OK";
     check_answers := false;
     allow_blanks := true;
     case_sensitivity := true;
     autofocus := false |}.

(** The value of the double of mantissa [m] and exponent [e]. *)
Definition number_value (m : positive) (e : Z) : Q :=
  (inject_Z (Zpos m) * 2 ^ e)%Q.

Definition scaled (m : Z) (e : Z) : Q := (inject_Z m * 2 ^ e)%Q.

(** After [k] shifts of [m0] to the right: the mantissa is the quotient,
    and the round bit is the bit shifted out last. *)
Definition shifted (m0 : Z) (k : nat) (mrs : shr_record) : Prop :=
  (0 <= shr_m mrs
   /\ exists t, 0 <= t < 2 ^ Z.of_nat k
        /\ 2 * m0 = shr_m mrs * 2 ^ (Z.of_nat k + 1)
                    + (if shr_r mrs then 2 ^ Z.of_nat k else 0) + t)%Z.

(** * Properties *)

(** ** Strings *)

Section StringFacts.

Lemma split_length sep s :
  length (Js.split sep s) = S (Js.occurrences sep s).
Proof.
  induction s as [|c s IH]; simpl; [done|].
  destruct (Ascii.eqb c sep); simpl; [by rewrite IH|].
  destruct (Js.split sep s); simpl in *; lia.
Qed.

Lemma split_not_nil sep s : Js.split sep s <> [].
Proof.
  intros E. pose proof (split_length sep s) as H. rewrite E in H. done.
Qed.



Lemma occurrences_app sep s1 s2 :
  Js.occurrences sep (s1 +:+ s2)
  = Js.occurrences sep s1 + Js.occurrences sep s2.
Proof. induction s1 as [|c s1 IH]; simpl; [done|]. rewrite IH. lia. Qed.

(** Folding the case neither makes nor unmakes white space. *)
Lemma is_space_lower c : Js.is_space (Js.lower_char c) = Js.is_space c.
Proof. by destruct c as [[] [] [] [] [] [] [] []]. Qed.

Lemma lower_char_idem c : Js.lower_char (Js.lower_char c) = Js.lower_char c.
Proof. by destruct c as [[] [] [] [] [] [] [] []]. Qed.

Lemma lower_char_separator c :
  Ascii.eqb (Js.lower_char c) separator = Ascii.eqb c separator.
Proof. by destruct c as [[] [] [] [] [] [] [] []]. Qed.

Lemma toLowerCase_idem s : Js.toLowerCase (Js.toLowerCase s) = Js.toLowerCase s.
Proof.
  induction s as [|c s IH]; simpl; [done|]. by rewrite lower_char_idem, IH.
Qed.

Lemma trimStart_lower s :
  Js.trimStart (Js.toLowerCase s) = Js.toLowerCase (Js.trimStart s).
Proof.
  induction s as [|c s IH]; simpl; [done|].
  rewrite is_space_lower. by destruct (Js.is_space c).
Qed.

Lemma trimEnd_lower s :
  Js.trimEnd (Js.toLowerCase s) = Js.toLowerCase (Js.trimEnd s).
Proof.
  induction s as [|c s IH]; simpl; [done|].
  rewrite IH, is_space_lower.
  destruct (Js.trimEnd s); simpl; [by destruct (Js.is_space c)|done].
Qed.

Lemma trim_lower s : Js.trim (Js.toLowerCase s) = Js.toLowerCase (Js.trim s).
Proof. unfold Js.trim. by rewrite trimStart_lower, trimEnd_lower. Qed.

Lemma split_lower s :
  Js.split separator (Js.toLowerCase s)
  = Js.toLowerCase <$> Js.split separator s.
Proof.
  induction s as [|c s IH]; simpl; [done|].
  rewrite lower_char_separator, IH.
  destruct (Ascii.eqb c separator); simpl; [done|].
  by destruct (Js.split separator s).
Qed.

Lemma includes_true xs x : Js.includes xs x = true <-> x ∈ xs.
Proof.
  unfold Js.includes. rewrite existsb_exists. split.
  - intros (y & Hy & E). apply String.eqb_eq in E. subst.
    by apply list_elem_of_In.
  - intros H. exists x. split; [by apply list_elem_of_In|apply String.eqb_refl].
Qed.

Lemma includes_false xs x : Js.includes xs x = false <-> x ∉ xs.
Proof.
  rewrite <- includes_true. destruct (Js.includes xs x); naive_solver.
Qed.

Lemma append_nil_r s : s +:+ "" = s.
Proof.
  induction s as [|c s IH]; [done|].
  change (String c (s +:+ "") = String c s). by rewrite IH.
Qed.

Lemma snoc_append s c s' : Html.snoc s c +:+ s' = s +:+ String c s'.
Proof.
  unfold Html.snoc. induction s as [|a s IH]; [done|].
  change (String a ((s +:+ String c "") +:+ s') = String a (s +:+ String c s')).
  by rewrite IH.
Qed.

(** The elements of a template of plain text are plain text. *)
Lemma split_plain sep s :
  Html.plain s = true ->
  Forall (fun element => Html.plain element = true) (Js.split sep s).
Proof.
  induction s as [|c s IH]; simpl; [by repeat constructor|].
  intros [Hc Hs]%andb_true_iff. specialize (IH Hs).
  destruct (Ascii.eqb c sep); [by constructor|].
  destruct (Js.split sep s) as [|piece pieces].
  - repeat constructor. simpl. by rewrite Hc.
  - apply Forall_cons in IH as [Hp Hps]. constructor; [|done].
    simpl. by rewrite Hc, Hp.
Qed.

End StringFacts.

(** ** Numbers *)

Section NumberFacts.

Local Open Scope Z_scope.

Lemma two_pow_pos e : (0 < 2 ^ e)%Q.
Proof. by apply Qpower_0_lt. Qed.

Lemma two_pow_add a b : (2 ^ (a + b) == 2 ^ a * 2 ^ b)%Q.
Proof. by apply Qpower_plus. Qed.

Lemma two_pow_le a b : a <= b -> (2 ^ a <= 2 ^ b)%Q.
Proof. intros H. apply Qpower_le_compat_l; [done|]. unfold Qle. simpl. lia. Qed.

Lemma two_pow_inject k : 0 <= k -> (inject_Z (2 ^ k) == 2 ^ k)%Q.
Proof. intros H. by rewrite Zpower_Qpower. Qed.

Lemma digits_bounds p :
  2 ^ (Zpos (digits2_pos p) - 1) <= Zpos p < 2 ^ Zpos (digits2_pos p).
Proof.
  induction p as [p IH|p IH|]; cbn [digits2_pos].
  - rewrite Pos2Z.inj_succ.
    replace (Z.succ (Zpos (digits2_pos p)) - 1)
      with (Z.succ (Zpos (digits2_pos p) - 1)) by lia.
    rewrite !Z.pow_succ_r by lia. lia.
  - rewrite Pos2Z.inj_succ.
    replace (Z.succ (Zpos (digits2_pos p)) - 1)
      with (Z.succ (Zpos (digits2_pos p) - 1)) by lia.
    rewrite !Z.pow_succ_r by lia. lia.
  - done.
Qed.

Lemma iter_pos_invariant {A} (f : A -> A) (I : nat -> A -> Prop) :
  (forall k x, I k x -> I (S k) (f x)) ->
  forall p k x, I k x -> I (k + Pos.to_nat p)%nat (@SpecFloat.iter_pos A f p x).
Proof.
  intros Hstep. induction p as [p IH|p IH|]; intros k x Hx; cbn [SpecFloat.iter_pos].
  - replace (k + Pos.to_nat p~1)%nat
      with (S k + Pos.to_nat p + Pos.to_nat p)%nat by lia.
    apply IH, IH, Hstep, Hx.
  - replace (k + Pos.to_nat p~0)%nat
      with (k + Pos.to_nat p + Pos.to_nat p)%nat by lia.
    apply IH, IH, Hx.
  - replace (k + Pos.to_nat 1)%nat with (S k) by lia. by apply Hstep.
Qed.

Lemma shr_1_shifted m0 k mrs :
  shifted m0 k mrs -> shifted m0 (S k) (shr_1 mrs).
Proof.
  intros [Hm (t & Ht & Heq)]. destruct mrs as [m r s]. cbn [shr_m shr_r] in *.
  unfold shifted. rewrite Nat2Z.inj_succ.
  assert (2 ^ (Z.succ (Z.of_nat k) + 1) = 2 * 2 ^ (Z.of_nat k + 1)) as E1.
  { replace (Z.succ (Z.of_nat k) + 1) with (Z.succ (Z.of_nat k + 1)) by lia.
    apply Z.pow_succ_r. lia. }
  assert (2 ^ Z.succ (Z.of_nat k) = 2 ^ (Z.of_nat k + 1)) as E2 by (f_equal; lia).
  assert (2 ^ (Z.of_nat k + 1) = 2 * 2 ^ Z.of_nat k) as E3.
  { replace (Z.of_nat k + 1) with (Z.succ (Z.of_nat k)) by lia.
    apply Z.pow_succ_r. lia. }
  destruct m as [|[p|p|]|p]; cbn [shr_1 shr_m shr_r]; (split; [lia|]);
    try lia;
    exists ((if r then 2 ^ Z.of_nat k else 0) + t);
    rewrite E1, E2; destruct r; lia.
Qed.

Lemma shr_shifted m0 p :
  0 <= m0 ->
  shifted m0 (Pos.to_nat p)
    (@SpecFloat.iter_pos _ shr_1 p {| shr_m := m0; shr_r := false; shr_s := false |}).
Proof.
  intros H0.
  apply (iter_pos_invariant shr_1 (shifted m0) (shr_1_shifted m0) p 0%nat).
  split; [done|]. exists 0. cbn. lia.
Qed.

Lemma round_nearest_even_bounds mrs :
  0 <= shr_m mrs ->
  shr_m mrs <= round_nearest_even (shr_m mrs) (loc_of_shr_record mrs)
  <= shr_m mrs + (if shr_r mrs then 1 else 0).
Proof.
  destruct mrs as [m [] []]; cbn; intros H; try lia.
  destruct (Z.even m); lia.
Qed.

(** One [shr_fexp] from an exact location, and the rounding that follows. *)
Lemma shr_fexp_exact m e :
  0 <= m ->
  exists k,
    0 <= k
    /\ snd (shr_fexp 53 1024 m e loc_Exact) = e + k
    /\ 0 <= shr_m (fst (shr_fexp 53 1024 m e loc_Exact))
    /\ shr_m (fst (shr_fexp 53 1024 m e loc_Exact)) * 2 ^ k <= m
    /\ (let mrs := fst (shr_fexp 53 1024 m e loc_Exact) in
        let m1 := round_nearest_even (shr_m mrs) (loc_of_shr_record mrs) in
        shr_m mrs <= m1
        /\ ((k = 0 /\ m1 = m)
            \/ (0 < k /\ e + k = fexp 53 1024 (Zdigits2 m + e)
                /\ 2 * (m1 * 2 ^ k) <= 2 * m + 2 ^ k))).
Proof.
  intros H0. unfold shr_fexp, shr. cbn [shr_record_of_loc].
  destruct (fexp 53 1024 (Zdigits2 m + e) - e) as [|p|p] eqn:Hs.
  - exists 0. cbn. lia.
  - exists (Zpos p). cbn [fst snd].
    destruct (shr_shifted m p H0) as [Hm (t & Ht & Heq)].
    set (mrs := @SpecFloat.iter_pos _ shr_1 p _) in *.
    pose proof (round_nearest_even_bounds mrs Hm) as Hround.
    rewrite positive_nat_Z in *.
    assert (2 ^ (Zpos p + 1) = 2 * 2 ^ Zpos p) as E.
    { replace (Zpos p + 1) with (Z.succ (Zpos p)) by lia.
      apply Z.pow_succ_r. lia. }
    assert (0 < 2 ^ Zpos p) as Hpow by (apply Z.pow_pos_nonneg; lia).
    rewrite E in Heq.
    split; [lia|]. split; [done|]. split; [done|].
    split; [destruct (shr_r mrs); nia|]. split; [lia|].
    right. split; [lia|]. split; [lia|].
    destruct (shr_r mrs); nia.
  - exists 0. cbn. lia.
Qed.

Lemma scaled_shift m k e :
  0 <= k -> (scaled (m * 2 ^ k) e == scaled m (e + k))%Q.
Proof.
  intros Hk. unfold scaled.
  rewrite inject_Z_mult, two_pow_inject, two_pow_add by done. ring.
Qed.

Lemma scaled_le m m' e : m <= m' -> (scaled m e <= scaled m' e)%Q.
Proof.
  intros H. unfold scaled. apply Qmult_le_compat_r.
  - by rewrite <- Zle_Qle.
  - apply Qlt_le_weak, two_pow_pos.
Qed.

Lemma two_pow_lt_inv a b : (2 ^ a < 2 ^ b)%Q -> a < b.
Proof. intros H. apply (Qpower_lt_compat_l_inv 2); [done|]. unfold Qlt. simpl. lia. Qed.

(** The product of the mantissas, rounded: below any bound that exceeds
    it by the relative error of the rounding (half a unit in the last of
    53 places) and by the least absolute error of the format. *)
Lemma binary_round_aux_below X ex (B : Q) :
  (number_value X ex * (1 + 2 ^ (-53)) < B)%Q ->
  (number_value X ex + 2 ^ (-1075) < B)%Q ->
  (B <= 2 ^ 53)%Q ->
  match binary_round_aux 53 1024 false (Zpos X) ex loc_Exact with
  | S754_zero false => True
  | S754_finite false m e => (number_value m e < B)%Q
  | _ => False
  end.
Proof.
  intros Hrel Habs HB. unfold binary_round_aux.
  destruct (shr_fexp_exact (Zpos X) ex) as (k1 & Hk1 & He1 & Hm1 & _ & Hle1 & Hcase);
    [done|].
  destruct (shr_fexp 53 1024 (Zpos X) ex loc_Exact) as [mrs1 e1] eqn:E1.
  cbn [fst snd] in *.
  set (m1 := round_nearest_even (shr_m mrs1) (loc_of_shr_record mrs1)) in *.
  destruct (shr_fexp_exact m1 e1) as (k2 & Hk2 & He2 & Hm2 & Hle2 & _); [lia|].
  destruct (shr_fexp 53 1024 m1 e1 loc_Exact) as [mrs2 e2] eqn:E2.
  cbn [fst snd] in *.
  assert (0 < number_value X ex)%Q as Hx.
  { unfold number_value. apply Qmult_lt_0_compat; [|apply two_pow_pos].
    by rewrite <- (Zlt_Qlt 0). }
  (* the value before the second shift is below the bound *)
  assert (scaled m1 e1 < B)%Q as Hv1.
  { destruct Hcase as [[-> ->]|(Hpos & Hfexp & Hround)].
    - rewrite He1, Z.add_0_r.
      change (scaled (Zpos X) ex) with (number_value X ex).
      eapply Qle_lt_trans; [|exact Hrel].
      rewrite <- (Qmult_1_r (number_value X ex)) at 1.
      apply Qmult_le_l; [done|].
      pose proof (two_pow_pos (-53)). lra.
    - assert (scaled (2 * (m1 * 2 ^ k1)) ex
              <= scaled (2 * Zpos X + 2 ^ k1) ex)%Q as H by by apply scaled_le.
      assert (scaled m1 e1 <= number_value X ex + 2 ^ (e1 - 1))%Q as Hv.
      { rewrite He1. rewrite <- scaled_shift by lia.
        unfold scaled, number_value in *.
        rewrite !inject_Z_mult, !inject_Z_plus, !inject_Z_mult in H.
        rewrite two_pow_inject in H by lia.
        replace (ex + k1 - 1) with (k1 + ex + -1) by lia.
        rewrite !two_pow_add. rewrite inject_Z_mult, two_pow_inject by lia.
        change (2 ^ (-1))%Q with (1 # 2)%Q. change (inject_Z 2) with 2%Q in H.
        pose proof (two_pow_pos ex). pose proof (two_pow_pos k1).
        nra. }
      eapply Qle_lt_trans; [exact Hv|].
      rewrite He1, Hfexp. unfold fexp, emin.
      change (3 - 1024 - 53) with (-1074).
      destruct (Z.max_spec (Zdigits2 (Zpos X) + ex - 53) (-1074)) as [[_ ->]|[_ ->]].
      + by change (-1074 - 1) with (-1075).
      + eapply Qle_lt_trans; [|exact Hrel].
        cbn [Zdigits2].
        assert (2 ^ (Zpos (digits2_pos X) + ex - 53 - 1)
                <= number_value X ex * 2 ^ (-53))%Q as Hd; [|lra].
        replace (Zpos (digits2_pos X) + ex - 53 - 1)
          with ((Zpos (digits2_pos X) - 1) + ex + -53) by lia.
        rewrite !two_pow_add. unfold number_value.
        apply Qmult_le_compat_r; [|apply Qlt_le_weak, two_pow_pos].
        apply Qmult_le_compat_r; [|apply Qlt_le_weak, two_pow_pos].
        pose proof (digits_bounds X) as [Hlo _].
        rewrite <- two_pow_inject by lia. by rewrite <- Zle_Qle. }
  assert (scaled (shr_m mrs2) e2 <= scaled m1 e1)%Q as Hv2.
  { rewrite He2, <- scaled_shift by done. by apply scaled_le. }
  destruct (shr_m mrs2) as [|m|m] eqn:Em2; [done| |lia].
  change (scaled (Zpos m) e2) with (number_value m e2) in Hv2.
  assert (number_value m e2 < B)%Q as Hv by (eapply Qle_lt_trans; eassumption).
  assert (e2 < 53) as He.
  { apply two_pow_lt_inv. eapply Qle_lt_trans; [|eapply Qlt_le_trans; eassumption].
    unfold number_value. rewrite <- (Qmult_1_l (2 ^ e2)) at 1.
    apply Qmult_le_compat_r; [|apply Qlt_le_weak, two_pow_pos].
    rewrite <- (Zle_Qle 1). lia. }
  replace (e2 <=? 1024 - 53) with true by (symmetry; apply Z.leb_le; lia).
  done.
Qed.

Lemma binary_round_aux_canonical s p e :
  fexp 53 1024 (Zpos (digits2_pos p) + e) = e -> e <= 971 ->
  binary_round_aux 53 1024 s (Zpos p) e loc_Exact = S754_finite s p e.
Proof.
  intros Hc He. unfold binary_round_aux, shr_fexp. cbn [Zdigits2].
  rewrite Hc, Z.sub_diag. cbn. rewrite Hc, Z.sub_diag. cbn.
  replace (e <=? 1024 - 53) with true by (symmetry; apply Z.leb_le; lia). done.
Qed.

Lemma iter_xO p k :
  Zpos (Pos.iter xO p k) = Zpos p * 2 ^ Zpos k
  /\ digits2_pos (Pos.iter xO p k) = (digits2_pos p + k)%positive.
Proof.
  induction k as [|k IH] using Pos.peano_ind.
  - cbn. split; lia.
  - rewrite Pos.iter_succ, Pos2Z.inj_succ, Z.pow_succ_r by lia.
    destruct IH as [IH1 IH2]. cbn [digits2_pos]. rewrite IH2.
    split; lia.
Qed.

(** The length of an array, as a number: itself, when below [2 ^ 53]. *)
Lemma of_length_value n :
  (0 < n)%nat -> Z.of_nat n < 2 ^ 53 ->
  exists m e,
    Js.of_length n = S754_finite false m e
    /\ (number_value m e == inject_Z (Z.of_nat n))%Q.
Proof.
  intros H0 Hn. unfold Js.of_length.
  destruct (Z.of_nat n) as [|p|p] eqn:Ep; [lia| |lia].
  cbn [binary_normalize]. unfold binary_round, shl_align.
  pose proof (digits_bounds p) as [Hlo Hhi].
  assert (Zpos (digits2_pos p) <= 53) as Hd.
  { destruct (Z.le_gt_cases (Zpos (digits2_pos p)) 53) as [|Hgt]; [done|].
    assert (2 ^ 53 <= 2 ^ (Zpos (digits2_pos p) - 1))
      by (apply Z.pow_le_mono_r; lia). lia. }
  assert (fexp 53 1024 (Zpos (digits2_pos p) + 0) = Zpos (digits2_pos p) - 53)
    as Hf by (unfold fexp, emin; lia).
  rewrite Hf.
  destruct (Zpos (digits2_pos p) - 53 - 0) as [|k|k] eqn:Ek; [|lia|].
  - exists p, 0. rewrite binary_round_aux_canonical; [|by rewrite Hf; lia|lia].
    split; [done|]. unfold number_value. change (2 ^ 0)%Q with 1%Q. ring.
  - destruct (iter_xO p k) as [Hv Hdig].
    exists (Pos.iter xO p k), (Zpos (digits2_pos p) - 53).
    rewrite binary_round_aux_canonical.
    + split; [done|]. unfold number_value. rewrite Hv, inject_Z_mult.
      rewrite two_pow_inject by lia. rewrite <- Qmult_assoc, <- two_pow_add.
      replace (Zpos k + (Zpos (digits2_pos p) - 53)) with 0 by lia.
      change (2 ^ 0)%Q with 1%Q. ring.
    + rewrite Hdig. unfold fexp, emin. lia.
    + lia.
Qed.

(** A number of the unit interval is at most [1 - 2 ^ -53]. *)
Lemma unit_number_value r :
  Js.unit_number r = true ->
  (exists s, r = S754_zero s)
  \/ exists m e,
       r = S754_finite false m e
       /\ (number_value m e <= 1 - 2 ^ (-53))%Q.
Proof.
  unfold Js.unit_number. rewrite !andb_true_iff. intros [[Hvalid Hpos] Hlt].
  destruct r as [s|s| |s m e]; [by left; eexists|by destruct s|done|].
  destruct s; [done|]. right. exists m, e. split; [done|].
  cbn in Hvalid. unfold bounded, canonical_mantissa in Hvalid.
  apply andb_true_iff in Hvalid as [Hcan _]. apply Z.eqb_eq in Hcan.
  unfold fexp, emin in Hcan.
  pose proof (digits_bounds m) as [_ Hhi].
  assert (Zpos m < 2 ^ 53) as Hm.
  { eapply Z.lt_le_trans; [exact Hhi|]. apply Z.pow_le_mono_r; lia. }
  assert (SFone 53 1024 = S754_finite false 4503599627370496 (-52)) as Hone
    by (vm_compute; reflexivity).
  unfold SFltb in Hlt. cbn [SFcompare] in Hlt. rewrite Hone in Hlt.
  assert (e <= -53 \/ (e = -52 /\ Zpos m < 2 ^ 52)) as [He|[-> Hm52]].
  { destruct (Z.compare_spec e (-52)) as [->|?|?]; [|lia|done].
    right. split; [done|].
    by destruct (Pos.compare_cont Eq m 4503599627370496) eqn:Ec. }
  - unfold number_value.
    apply Qle_trans with (inject_Z (2 ^ 53 - 1) * 2 ^ (-53))%Q.
    + apply Qmult_le_compat_nonneg.
      * split; [by rewrite <- (Zle_Qle 0)|]. rewrite <- Zle_Qle. lia.
      * split; [apply Qlt_le_weak, two_pow_pos|by apply two_pow_le].
    + by vm_compute.
  - unfold number_value.
    apply Qle_trans with (inject_Z (2 ^ 52 - 1) * 2 ^ (-52))%Q.
    + apply Qmult_le_compat_r; [|apply Qlt_le_weak, two_pow_pos].
      rewrite <- Zle_Qle. lia.
    + by vm_compute.
Qed.

Lemma floor_index_below m e (n : nat) :
  (number_value m e < inject_Z (Z.of_nat n))%Q ->
  exists i, Js.floor_index (S754_finite false m e) = Some i /\ (i < n)%nat.
Proof.
  intros Hv. cbn [Js.floor_index]. eexists. split; [done|].
  assert (0 <= Z.shiftl (Zpos m) e) as H0 by (apply Z.shiftl_nonneg; lia).
  assert (Z.shiftl (Zpos m) e < Z.of_nat n) as H; [|lia].
  rewrite Zlt_Qlt. eapply Qle_lt_trans; [|exact Hv]. unfold number_value.
  destruct (Z.le_gt_cases 0 e) as [He|He].
  - rewrite Z.shiftl_mul_pow2 by done.
    rewrite inject_Z_mult, two_pow_inject by done. apply Qle_refl.
  - rewrite Z.shiftl_div_pow2 by lia.
    assert (2 ^ e == / 2 ^ (- e))%Q as ->.
    { rewrite <- Qpower_opp. by rewrite Z.opp_involutive. }
    assert (0 < 2 ^ (- e)) as Hp by (apply Z.pow_pos_nonneg; lia).
    pose proof (Z.mul_div_le (Zpos m) (2 ^ (- e)) Hp) as Hdiv.
    apply (Qmult_le_r _ _ (2 ^ (- e))); [apply two_pow_pos|].
    rewrite <- Qmult_assoc, (Qmult_comm (/ _)), Qmult_inv_r, Qmult_1_r
      by (apply Qnot_eq_sym, Qlt_not_eq, two_pow_pos).
    rewrite <- two_pow_inject, <- inject_Z_mult by lia.
    rewrite <- Zle_Qle. lia.
Qed.

(** [Math.floor(r * length)] is an index of the array, for every number
    [r] of the unit interval. *)
Lemma floor_times_below r n :
  Js.unit_number r = true ->
  (0 < n)%nat -> Z.of_nat n < 2 ^ 53 ->
  exists i,
    Js.floor_index (Js.times r (Js.of_length n)) = Some i /\ (i < n)%nat.
Proof.
  intros Hr H0 Hn.
  destruct (of_length_value n H0 Hn) as (mn & en & -> & Hvn).
  destruct (unit_number_value r Hr) as [[s ->]|(mr & er & -> & Hvr)].
  - exists 0%nat. split; [done|lia].
  - unfold Js.times. cbn [SFmul xorb].
    pose proof (binary_round_aux_below (mr * mn) (er + en)
                  (inject_Z (Z.of_nat n))) as H.
    assert (number_value (mr * mn) (er + en)
            == number_value mr er * number_value mn en)%Q as Hx.
    { unfold number_value. rewrite Pos2Z.inj_mul, inject_Z_mult, two_pow_add. ring. }
    assert (1 <= inject_Z (Z.of_nat n))%Q as Hn1
      by (rewrite <- (Zle_Qle 1); lia).
    assert (0 < number_value mr er)%Q as Hr0.
    { unfold number_value. apply Qmult_lt_0_compat; [|apply two_pow_pos].
      by rewrite <- (Zlt_Qlt 0). }
    change (2 ^ (-53))%Q with (1 # 9007199254740992)%Q in *.
    assert (2 ^ (-1075) <= 1 # 9007199254740992)%Q as Htiny by by vm_compute.
    specialize (H ltac:(rewrite Hx, Hvn; nra) ltac:(rewrite Hx, Hvn; nra)).
    specialize (H ltac:(rewrite <- two_pow_inject by lia;
                        rewrite <- Zle_Qle; lia)).
    destruct (binary_round_aux 53 1024 false (Zpos (mr * mn)) (er + en) loc_Exact)
      as [[]|[]| |[] m e]; try done.
    + exists 0%nat. split; [done|lia].
    + by apply floor_index_below.
Qed.

End NumberFacts.

(** ** The parser *)

(** Division by two, for [lia]. *)
#[local] Ltac Zify.zify_post_hook ::= Z.to_euclidean_division_equations.

(** Two lookups in one list, at indices that are equal by arithmetic. *)
Ltac same_index :=
  match goal with
  | |- context [ ?l !! ?a ] =>
      match goal with
      | |- context [ l !! ?b ] =>
          lazymatch a with b => fail | _ => idtac end;
          replace a with b by lia; reflexivity
      end
  end.

Section ParserFacts.

Lemma alternatives_not_nil cs element : alternatives cs element <> [].
Proof. unfold alternatives. destruct cs; apply split_not_nil. Qed.

(** The solutions are the alternatives of the elements at the odd
    indices, in their order. *)
Lemma getSolutions_from_lookup cs elements : forall i k,
  getSolutions_from i cs elements !! k
  = alternatives cs <$> elements !! (2 * k + (if Nat.odd i then 0 else 1)).
Proof.
  induction elements as [|e rest IH]; intros i k; simpl.
  - by rewrite !lookup_nil.
  - destruct (Nat.odd i) eqn:Hi.
    + destruct k as [|k]; simpl; [done|].
      rewrite IH, Nat.odd_succ, <- Nat.negb_odd, Hi. simpl.
      same_index.
    + rewrite IH, Nat.odd_succ, <- Nat.negb_odd, Hi. simpl.
      replace (k + (k + 0) + 1) with (S (2 * k)) by lia. simpl.
      same_index.
Qed.

Lemma getSolutions_from_length cs elements : forall i,
  length (getSolutions_from i cs elements)
  = (length elements + (if Nat.odd i then 1 else 0)) / 2.
Proof.
  induction elements as [|e rest IH]; intros i; cbn [getSolutions_from length].
  - by destruct (Nat.odd i).
  - destruct (Nat.odd i) eqn:Hi; cbn [length];
      rewrite IH, Nat.odd_succ, <- Nat.negb_odd, Hi; cbn [negb].
    + replace (S (length rest) + 1) with (length rest + 0 + 1 * 2) by lia.
      rewrite Nat.div_add by lia. lia.
    + f_equal. lia.
Qed.

Lemma getSolutions_lookup text cs k :
  getSolutions text cs !! k
  = alternatives cs <$> Js.split marker text !! (2 * k + 1).
Proof. unfold getSolutions. by rewrite getSolutions_from_lookup. Qed.

Lemma getSolutions_length text cs :
  length (getSolutions text cs) = S (Js.occurrences marker text) / 2.
Proof.
  unfold getSolutions. rewrite getSolutions_from_length, split_length.
  change (Nat.odd 0) with false. cbv iota. by rewrite Nat.add_0_r.
Qed.

Lemma getSolutions_not_nil text cs :
  Forall (fun solution => solution <> []) (getSolutions text cs).
Proof.
  apply Forall_lookup. intros k solution. rewrite getSolutions_lookup.
  intros H. apply fmap_Some in H as (e & _ & ->). apply alternatives_not_nil.
Qed.

(** C4: a template with an even number [2 * k] of markers parses, under
    either value of the case-sensitivity flag, to exactly [k] lists of
    accepted answers; the [i]-th list is the one derived from the [i]-th
    marker-enclosed element, from left to right, and no list is empty. *)
Theorem getSolutions_even_markers text cs k :
  Js.occurrences marker text = 2 * k ->
  length (getSolutions text cs) = k
  /\ (forall i, i < k ->
        exists element,
          Js.split marker text !! (2 * i + 1) = Some element
          /\ getSolutions text cs !! i = Some (alternatives cs element))
  /\ Forall (fun solution => 1 <= length solution) (getSolutions text cs).
Proof.
  intros Hk. split; [|split].
  - rewrite getSolutions_length, Hk. lia.
  - intros i Hi.
    destruct (lookup_lt_is_Some_2 (Js.split marker text) (2 * i + 1))
      as [element He]; [rewrite split_length; lia|].
    exists element. by rewrite getSolutions_lookup, He.
  - eapply Forall_impl; [apply getSolutions_not_nil|].
    intros [|a solution] H; simpl; [done|lia].
Qed.

Lemma getSolutions_even_markers_witness :
  Js.occurrences marker "Fill %in/out% the %%." = 2 * 2
  /\ length (getSolutions "Fill %in/out% the %%." false) = 2.
Proof.
  split; [reflexivity|].
  apply (getSolutions_even_markers "Fill %in/out% the %%." false 2).
  reflexivity.
Defined.

Lemma alternatives_blank cs element :
  Js.trim element = "" -> alternatives cs element = [""].
Proof.
  intros H. unfold alternatives. destruct cs; [by rewrite H|].
  by rewrite trim_lower, H.
Qed.

(** C6: a blank whose marker-enclosed content is empty once trimmed has,
    under either value of the case-sensitivity flag, exactly one accepted
    alternative, the empty string. *)
Theorem getSolutions_blank_content text cs i element :
  Js.split marker text !! (2 * i + 1) = Some element ->
  Js.trim element = "" ->
  getSolutions text cs !! i = Some [""].
Proof.
  intros He Hblank.
  by rewrite getSolutions_lookup, He; simpl; rewrite alternatives_blank.
Qed.

Lemma getSolutions_blank_content_witness :
  getSolutions "a %cloze% and %  % here" false !! 1 = Some [""].
Proof.
  apply (getSolutions_blank_content "a %cloze% and %  % here" false 1 "  ");
    reflexivity.
Defined.

End ParserFacts.

(** ** The submit handler *)

Section CheckFacts.

Lemma bind_Ok {A B} (m : M A) (f : A -> M B) w a w' :
  m w = Ok a w' -> (m ≫= f) w = f a w'.
Proof. intros H. unfold mbind, M_bind. by rewrite H. Qed.

Lemma bind_Throw {A B} (m : M A) (f : A -> M B) w w' :
  m w = Throw w' -> (m ≫= f) w = Throw w'.
Proof. intros H. unfold mbind, M_bind. by rewrite H. Qed.

Lemma set_inputs_same w : set_inputs (inputs w) w = w.
Proof. by destruct w. Qed.

Lemma set_inputs_twice fs1 fs2 w :
  set_inputs fs2 (set_inputs fs1 w) = set_inputs fs2 w.
Proof. done. Qed.

Lemma alter_lookup_insert {A} (g : A -> A) (l : list A) i x :
  l !! i = Some x -> alter g i l = <[i := g x]> l.
Proof.
  revert i. induction l as [|y l IH]; intros [|i] H; simplify_eq/=; try done.
  f_equal. by apply IH.
Qed.

Lemma alter_lookup_None {A} (g : A -> A) (l : list A) i :
  l !! i = None -> alter g i l = l.
Proof.
  revert i. induction l as [|y l IH]; intros [|i] H; simplify_eq/=; try done.
  f_equal. by apply IH.
Qed.

Lemma answers_of_length t fs : length (answers_of t fs) = length fs.
Proof. apply length_fmap. Qed.

Lemma answers_of_insert t fs i f f' :
  fs !! i = Some f -> value f' = value f ->
  answers_of t (<[i := f']> fs) = answers_of t fs.
Proof.
  intros Hf Hv. unfold answers_of. rewrite list_fmap_insert, Hv.
  apply list_insert_id. by rewrite list_lookup_fmap, Hf.
Qed.

Lemma answers_of_flag_from t solutions : forall i fs,
  answers_of t (flag_from t i solutions fs) = answers_of t fs.
Proof.
  induction solutions as [|solution rest IH]; intros i fs; simpl; [done|].
  rewrite IH. destruct (fs !! i) as [f|] eqn:Hf.
  - rewrite (alter_lookup_insert _ _ _ f) by done.
    by apply (answers_of_insert _ _ _ f).
  - by rewrite alter_lookup_None.
Qed.

Lemma flag_from_length t solutions : forall i fs,
  length (flag_from t i solutions fs) = length fs.
Proof.
  induction solutions as [|solution rest IH]; intros i fs; simpl; [done|].
  rewrite IH. apply length_alter.
Qed.

Lemma gate_correct_cons solution rest a given :
  gate_correct (solution :: rest) (a :: given)
  = Js.includes solution a && gate_correct rest given.
Proof. done. Qed.

Lemma gate_filled_cons a given :
  gate_filled (a :: given) = negb (String.eqb a "") && gate_filled given.
Proof. done. Qed.

(** Equal records of booleans, by cases on the tests they are built of. *)
Ltac booleans :=
  repeat match goal with
         | H : _ = true |- _ => rewrite H
         | H : _ = false |- _ => rewrite H
         end;
  repeat match goal with
         | |- context [ allow_blanks ?t ] => destruct (allow_blanks t)
         | |- context [ String.eqb ?a ?b ] => destruct (String.eqb a b)
         | |- context [ answers_correct ?l ] => destruct (answers_correct l)
         | |- context [ answers_filled ?l ] => destruct (answers_filled l)
         | |- context [ gate_correct ?s ?g ] => destruct (gate_correct s g)
         | |- context [ gate_filled ?g ] => destruct (gate_filled g)
         end;
  reflexivity.

(** What the loop of [check] computes when every blank has its field. *)
Lemma check_from_Ok t solutions : forall i l w,
  i + length solutions <= length (inputs w) ->
  let given := drop i (answers_of t (inputs w)) in
  check_from t i solutions l w
  = Ok {| answers := (answers l ++ take (length solutions) given)%list;
          answers_correct :=
            if check_answers t
            then answers_correct l && gate_correct solutions given
            else answers_correct l;
          answers_filled :=
            if allow_blanks t then answers_filled l
            else answers_filled l
                 && gate_filled (take (length solutions) given) |}
       (set_inputs (if check_answers t
                    then flag_from t i solutions (inputs w)
                    else inputs w) w).
Proof.
  induction solutions as [|solution rest IH]; intros i l w Hlen given.
  - simpl. unfold mret, M_ret. rewrite app_nil_r, !andb_true_r.
    destruct l as [a c f]. simpl.
    by destruct (check_answers t), (allow_blanks t); rewrite set_inputs_same.
  - simpl in Hlen.
    destruct (lookup_lt_is_Some_2 (inputs w) i) as [field Hfield]; [lia|].
    assert (Hgiven : given = normalize t (value field)
                             :: drop (S i) (answers_of t (inputs w))).
    { subst given. apply drop_S. unfold answers_of.
      by rewrite list_lookup_fmap, Hfield. }
    cbn [check_from].
    erewrite bind_Ok; [|unfold field_value; by rewrite Hfield].
    rewrite Hgiven. cbn [length take].
    rewrite gate_correct_cons, gate_filled_cons.
    set (answer := normalize t (value field)).
    destruct (check_answers t) eqn:Hcheck.
    + set (w1 := set_inputs (alter (flag t solution) i (inputs w)) w).
      assert (Hw1 : forall c, c = (if Js.includes solution answer
                                   then "black" else "red") ->
                set_color i c w = Ok tt w1).
      { intros c ->. unfold set_color. rewrite Hfield. subst w1.
        by rewrite (alter_lookup_insert _ _ _ field). }
      assert (Hans : answers_of t (inputs w1) = answers_of t (inputs w)).
      { subst w1. simpl. rewrite (alter_lookup_insert _ _ _ field) by done.
        by apply (answers_of_insert _ _ _ field). }
      destruct (Js.includes solution answer) eqn:Hinc; cbn [negb];
        (erewrite bind_Ok;
           [|erewrite bind_Ok; [|by apply Hw1]; reflexivity]);
        rewrite IH by (subst w1; simpl; rewrite length_alter; lia);
        rewrite Hans; subst w1; cbn [inputs set_inputs];
        rewrite set_inputs_twice;
        cbn [answers answers_correct answers_filled flag_from];
        rewrite <- app_assoc; cbn [app];
        booleans.
    + erewrite bind_Ok; [|reflexivity].
      rewrite IH by lia.
      cbn [answers answers_correct answers_filled].
      rewrite <- app_assoc. cbn [app]. booleans.
Qed.

Lemma gate_correct_false solutions : forall given,
  gate_correct solutions given = false <-> some_answer_wrong solutions given.
Proof.
  unfold some_answer_wrong.
  induction solutions as [|solution rest IH]; intros [|a given].
  - split; [done|]. by intros (i & s & b & H & _).
  - split; [done|]. by intros (i & s & b & H & _).
  - split; [done|]. by intros (i & s & b & _ & H & _).
  - rewrite gate_correct_cons, andb_false_iff, includes_false, IH. split.
    + intros [H|(i & s & b & H1 & H2 & H3)].
      * by exists 0, solution, a.
      * by exists (S i), s, b.
    + intros ([|i] & s & b & H1 & H2 & H3); simpl in H1, H2.
      * left. congruence.
      * right. by exists i, s, b.
Qed.

Lemma gate_filled_false given :
  gate_filled given = false <-> some_answer_empty given.
Proof.
  unfold some_answer_empty. induction given as [|a given IH].
  - split; [done|]. by intros H%elem_of_nil.
  - rewrite gate_filled_cons, andb_false_iff, IH, elem_of_cons,
      negb_false_iff, String.eqb_eq.
    split; (intros [E|H]; [by left|by right]).
Qed.

(** [gates_fail] is the condition of the resolution policy. *)
Lemma gates_fail_true t solutions given :
  gates_fail t solutions given = true
  <-> (check_answers t = true /\ some_answer_wrong solutions given)
      \/ (allow_blanks t = false /\ some_answer_empty given).
Proof.
  unfold gates_fail.
  rewrite orb_true_iff, !andb_true_iff, !negb_true_iff,
    gate_correct_false, gate_filled_false. done.
Qed.

(** One activation of the button, on a page with one field per blank. *)
Lemma check_Ok t solutions w :
  length (inputs w) = length solutions ->
  let given := answers_of t (inputs w) in
  check t solutions w
  = Ok tt
      {| display := display w; button := button w;
         inputs := if check_answers t
                   then flag_from t 0 solutions (inputs w) else inputs w;
         focused := focused w;
         calls := (calls w ++
                   [if gates_fail t solutions given then mistake_fn
                    else finishTrial {| response := given |}])%list;
         words_drawn := words_drawn w; randoms_drawn := randoms_drawn w;
         delays_drawn := delays_drawn w |}.
Proof.
  intros Hlen given. unfold check.
  erewrite bind_Ok; [|apply check_from_Ok; lia].
  rewrite drop_0, <- Hlen.
  rewrite take_ge by (rewrite answers_of_length; lia).
  fold given. cbn [answers answers_correct answers_filled andb app].
  unfold gates_fail.
  destruct (check_answers t), (allow_blanks t),
    (gate_correct solutions given), (gate_filled given); reflexivity.
Qed.

Lemma flag_from_lookup_lt t solutions : forall i fs j,
  j < i -> flag_from t i solutions fs !! j = fs !! j.
Proof.
  induction solutions as [|solution rest IH]; intros i fs j Hj; simpl; [done|].
  rewrite IH by lia. apply list_lookup_alter_ne. lia.
Qed.

(** The gate flags the field of the [j]-th blank, by its own answer. *)
Lemma flag_from_lookup t solutions : forall i fs j solution,
  solutions !! j = Some solution ->
  flag_from t i solutions fs !! (i + j) = flag t solution <$> fs !! (i + j).
Proof.
  induction solutions as [|s rest IH]; intros i fs [|j] solution H;
    simplify_eq/=.
  - rewrite Nat.add_0_r, flag_from_lookup_lt by lia.
    apply list_lookup_alter_eq.
  - replace (i + S j) with (S i + j) by lia.
    rewrite (IH _ _ _ solution) by done.
    f_equal. apply list_lookup_alter_ne. lia.
Qed.

Lemma submit_Ok t w :
  let solutions := getSolutions (text t) (case_sensitivity t) in
  let given := answers_of t (inputs w) in
  length (inputs w) = length solutions ->
  exists w',
    submit t w = Ok tt w'
    /\ calls w' = (calls w ++
                   [if gates_fail t solutions given then mistake_fn
                    else finishTrial {| response := given |}])%list
    /\ inputs w' = (if check_answers t
                    then flag_from t 0 solutions (inputs w) else inputs w).
Proof.
  intros solutions given Hlen. unfold submit.
  rewrite check_Ok by done. eexists. split; [reflexivity|]. done.
Qed.



(** C10: one activation of the button leaves every field as it was when
    answers are not checked, so that a failure of the completeness gate
    alone calls [mistake_fn] and flags no field; when answers are checked
    it sets the colour of the field of each blank to black if its answer
    is accepted and to red if not, and leaves its value. *)
Theorem submit_flags_fields t w :
  let solutions := getSolutions (text t) (case_sensitivity t) in
  let given := answers_of t (inputs w) in
  length (inputs w) = length solutions ->
  exists w',
    submit t w = Ok tt w'
    /\ (check_answers t = false -> inputs w' = inputs w)
    /\ (check_answers t = false -> allow_blanks t = false ->
        some_answer_empty given ->
        calls w' = (calls w ++ [mistake_fn])%list /\ inputs w' = inputs w)
    /\ (check_answers t = true ->
        forall i solution field,
          solutions !! i = Some solution ->
          inputs w !! i = Some field ->
          inputs w' !! i
          = Some {| value := value field;
                    color := if Js.includes solution
                                  (normalize t (value field))
                             then "black" else "red" |}).
Proof.
  intros solutions given Hlen.
  destruct (submit_Ok t w Hlen) as (w' & Hrun & Hcalls & Hinputs).
  exists w'. split; [done|]. fold solutions given in Hcalls, Hinputs.
  split; [|split].
  - intros Hc. by rewrite Hinputs, Hc.
  - intros Hc Hb He. split; [|by rewrite Hinputs, Hc].
    rewrite Hcalls.
    replace (gates_fail t solutions given) with true; [done|].
    symmetry. apply gates_fail_true. by right.
  - intros Hc i solution field Hs Hf. rewrite Hinputs, Hc.
    pose proof (flag_from_lookup t solutions 0 (inputs w) i solution Hs) as H.
    simpl in H. by rewrite H, Hf.
Qed.

Lemma submit_flags_fields_witness :
  exists w',
    submit checked_example
      (type_into 0 "b" (type_into 1 "x" (world_of (trial checked_example empty_world))))
    = Ok tt w'
    /\ inputs w' !! 1 = Some {| value := "x"; color := "red" |}.
Proof.
  destruct (submit_flags_fields checked_example
              (type_into 0 "b"
                 (type_into 1 "x" (world_of (trial checked_example empty_world)))))
    as (w' & Hrun & _ & _ & Hflag); [reflexivity|].
  exists w'. split; [exact Hrun|].
  apply (Hflag eq_refl 1 ["d"] {| value := "x"; color := "" |});
    reflexivity.
Defined.

End CheckFacts.

(** ** The markup read *)

Section ReaderFacts.

Lemma special_not_tag c : Html.is_special c = false -> Ascii.eqb c "<" = false.
Proof. by destruct c as [[] [] [] [] [] [] [] []]. Qed.

(** Plain text is read as text. *)
Lemma read_string_plain s : forall r,
  Html.plain s = true -> Html.mode r = Html.Data ->
  Html.read_string s r
  = Some {| Html.mode := Html.Data; Html.run := Html.run r +:+ s;
            Html.open_elements := Html.open_elements r;
            Html.nodes := Html.nodes r |}.
Proof.
  induction s as [|c s IH]; intros r Hs Hr.
  - rewrite append_nil_r. destruct r. simpl in *. by subst.
  - simpl in Hs. apply andb_true_iff in Hs as [Hc Hs].
    apply negb_true_iff in Hc.
    cbn [Html.read_string]. unfold Html.read_char.
    rewrite Hr, (special_not_tag c Hc), Hc.
    rewrite IH by done. cbn [Html.run Html.open_elements Html.nodes].
    by rewrite snoc_append.
Qed.

Lemma flush_text r element :
  Html.run r = "" ->
  Html.flush {| Html.mode := Html.Data; Html.run := element;
                Html.open_elements := Html.open_elements r;
                Html.nodes := Html.nodes r |}
  = (Html.flush r ++ text_node element)%list.
Proof.
  intros Hrun. unfold Html.flush. rewrite Hrun. cbn [Html.run Html.nodes].
  destruct element; [by rewrite app_nil_r|done].
Qed.

(** The markup of a template of plain text is read as the text of its
    elements and the inputs of its blanks. *)
Lemma read_pieces_plain elements : forall i c r,
  Forall (fun element => Html.plain element = true) elements ->
  Html.mode r = Html.Data -> Html.open_elements r = [] ->
  (Nat.even i = true -> Html.run r = "") ->
  exists r',
    Html.read_pieces (render_from i c elements) r = Some r'
    /\ Html.mode r' = Html.Data /\ Html.open_elements r' = []
    /\ Html.flush r' = (Html.flush r ++ surface_from i c elements)%list.
Proof.
  induction elements as [|e rest IH]; intros i c r Hplain Hmode Hopen Hrun.
  - exists r. by rewrite app_nil_r.
  - apply Forall_cons in Hplain as [He Hrest].
    cbn [render_from surface_from]. destruct (Nat.even i) eqn:Hi.
    + cbn [Html.read_pieces]. rewrite read_string_plain by done.
      rewrite (Hrun eq_refl). change ("" +:+ e) with e.
      destruct (IH (S i) c
                  {| Html.mode := Html.Data; Html.run := e;
                     Html.open_elements := Html.open_elements r;
                     Html.nodes := Html.nodes r |})
        as (r' & Hread & Hmode' & Hopen' & Hflush); [done|done|done| |].
      { rewrite Nat.even_succ, <- Nat.negb_even, Hi. done. }
      exists r'. split; [done|]. split; [done|]. split; [done|].
      by rewrite Hflush, flush_text, <- app_assoc by auto.
    + cbn [Html.read_pieces]. unfold Html.read_input. rewrite Hmode.
      destruct (IH (S i) (S c)
                  {| Html.mode := Html.Data; Html.run := "";
                     Html.open_elements := Html.open_elements r;
                     Html.nodes := (Html.flush r ++ [TextInput c])%list |})
        as (r' & Hread & Hmode' & Hopen' & Hflush); [done|done|done|done|].
      exists r'. split; [done|]. split; [done|]. split; [done|].
      rewrite Hflush. unfold Html.flush at 1. cbn [Html.run Html.nodes].
      by rewrite <- app_assoc.
Qed.

Lemma read_plain elements :
  Forall (fun element => Html.plain element = true) elements ->
  Html.read (render_from 0 0 elements) = Some (surface_from 0 0 elements).
Proof.
  intros Hplain. unfold Html.read.
  destruct (read_pieces_plain elements 0 0 Html.start Hplain)
    as (r' & -> & -> & -> & ->); done.
Qed.

Lemma text_inputs_text_node element : text_inputs (text_node element) = [].
Proof. by destruct element. Qed.

(** The inputs of the surface are numbered from [c] on. *)
Lemma text_inputs_surface elements : forall i c,
  text_inputs (surface_from i c elements)
  = TextInput <$> seq c ((length elements + (if Nat.odd i then 1 else 0)) / 2).
Proof.
  induction elements as [|e rest IH]; intros i c; cbn [surface_from length].
  - by destruct (Nat.odd i).
  - rewrite <- Nat.negb_odd. destruct (Nat.odd i) eqn:Hi; cbn [negb].
    + unfold text_inputs. rewrite filter_cons_True by done.
      fold (text_inputs (surface_from (S i) (S c) rest)).
      rewrite IH, Nat.odd_succ, <- Nat.negb_odd, Hi. cbn [negb].
      replace ((S (length rest) + 1) / 2) with (S ((length rest + 0) / 2)) by lia.
      done.
    + unfold text_inputs. rewrite filter_app.
      fold (text_inputs (text_node e)).
      fold (text_inputs (surface_from (S i) c rest)).
      rewrite text_inputs_text_node, IH, Nat.odd_succ, <- Nat.negb_odd, Hi.
      cbn [negb app]. do 2 f_equal. lia.
Qed.


Lemma existsb_has_id nodes i :
  existsb (has_id i) nodes = true <-> TextInput i ∈ text_inputs nodes.
Proof.
  rewrite existsb_exists. unfold text_inputs. rewrite list_elem_of_filter.
  split.
  - intros (node & Hin & Hid). destruct node; try done.
    apply Nat.eqb_eq in Hid. subst. split; [done|by apply list_elem_of_In].
  - intros [_ Hin]. exists (TextInput i).
    split; [by apply list_elem_of_In|apply Nat.eqb_refl].
Qed.

Lemma fields_from_replicate nodes n :
  (forall i, existsb (has_id i) nodes = true <-> i < n) ->
  forall fuel i,
    fields_from fuel i nodes = replicate (fuel `min` (n - i)) fresh_field.
Proof.
  intros Hids. induction fuel as [|fuel IH]; intros i; [done|].
  cbn [fields_from]. destruct (existsb (has_id i) nodes) eqn:Hi.
  - apply Hids in Hi. rewrite IH.
    replace (S fuel `min` (n - i)) with (S (fuel `min` (n - S i))) by lia.
    done.
  - assert (~ i < n) as Hn by (intros H; apply Hids in H; congruence).
    by replace (S fuel `min` (n - i)) with 0 by lia.
Qed.

(** A page whose inputs are numbered from 0 on has a field for each. *)
Lemma fields_of_inputs nodes n :
  text_inputs nodes = TextInput <$> seq 0 n ->
  fields_of nodes = replicate n fresh_field.
Proof.
  intros Hinputs. unfold fields_of.
  rewrite (fields_from_replicate nodes n).
  - f_equal. pose proof (length_filter is_input nodes) as Hlen.
    fold (text_inputs nodes) in Hlen.
    rewrite Hinputs, length_fmap, length_seq in Hlen. lia.
  - intros i. rewrite existsb_has_id, Hinputs, list_elem_of_fmap.
    split.
    + intros (j & [= ->] & Hj). apply elem_of_seq in Hj. lia.
    + intros Hi. exists i. split; [done|]. apply elem_of_seq. lia.
Qed.

Lemma surface_inputs text :
  text_inputs (surface_from 0 0 (Js.split marker text))
  = TextInput <$> seq 0 (S (Js.occurrences marker text) / 2).
Proof.
  rewrite text_inputs_surface, split_length.
  change (Nat.odd 0) with false. cbv iota. by rewrite Nat.add_0_r.
Qed.

End ReaderFacts.

(** ** The trial *)

Section TrialFacts.

(** [trial] on a template of plain text renders the surface, and throws
    on the focus when the focus is asked for and the surface has no
    input. *)
Lemma trial_result t w :
  plain_template t = true ->
  let n := length (getSolutions (text t) (case_sensitivity t)) in
  let page focus :=
    {| display := surface_from 0 0 (Js.split marker (text t));
       button := Some (button_text t);
       inputs := replicate n fresh_field;
       focused := focus; calls := calls w;
       words_drawn := words_drawn w; randoms_drawn := randoms_drawn w;
       delays_drawn := delays_drawn w |} in
  trial t w
  = if autofocus t
    then match n with
         | 0 => Throw (page None)
         | S _ => Ok tt (page (Some 0))
         end
    else Ok tt (page None).
Proof.
  intros [Htext Hlabel]%andb_true_iff n page. unfold trial.
  unfold mbind, M_bind, set_innerHTML, append_button.
  rewrite read_plain by (by apply split_plain). rewrite Hlabel.
  cbn [display calls words_drawn randoms_drawn delays_drawn].
  rewrite (fields_of_inputs _ n)
    by (subst n; rewrite getSolutions_length; apply surface_inputs).
  destruct (autofocus t); [|done].
  unfold focus_first_input. cbn [inputs display button calls words_drawn
    randoms_drawn delays_drawn].
  subst page. cbv beta. by destruct n.
Qed.

Lemma trial_page t w w' :
  plain_template t = true ->
  trial t w = Ok tt w' ->
  display w' = surface_from 0 0 (Js.split marker (text t))
  /\ button w' = Some (button_text t)
  /\ inputs w'
     = replicate (length (getSolutions (text t) (case_sensitivity t))) fresh_field
  /\ focused w' = (if autofocus t then Some 0 else None)
  /\ calls w' = calls w /\ delays_drawn w' = delays_drawn w.
Proof.
  intros Hplain. rewrite trial_result by done. intros H.
  destruct (autofocus t);
    [destruct (length (getSolutions _ _))|]; by simplify_eq/=.
Qed.

Lemma trial_inputs_length t w w' :
  plain_template t = true ->
  trial t w = Ok tt w' ->
  length (inputs w') = length (getSolutions (text t) (case_sensitivity t))
  /\ calls w' = calls w /\ delays_drawn w' = delays_drawn w.
Proof.
  intros Hplain Hrun.
  destruct (trial_page t w w' Hplain Hrun) as (_ & _ & -> & _ & -> & ->).
  by rewrite length_replicate.
Qed.


(** A template of plain text without marker, with the focus asked for:
    [trial] throws once the surface is rendered. *)
Lemma trial_no_marker_autofocus t w :
  plain_template t = true ->
  Js.occurrences marker (text t) = 0 -> autofocus t = true ->
  exists w', trial t w = Throw w'
             /\ text_inputs (display w') = [] /\ inputs w' = [].
Proof.
  intros Hplain Hn Hf. rewrite trial_result, Hf by done.
  pose proof (getSolutions_length (text t) (case_sensitivity t)) as Hlen.
  rewrite Hn in Hlen. change (1 / 2) with 0 in Hlen. rewrite Hlen.
  eexists. split; [reflexivity|]. cbn [display inputs replicate].
  by rewrite surface_inputs, Hn.
Qed.

(** A template of plain text without marker, with the focus not asked
    for: the surface has no text-entry control and the first activation of
    the button finishes the trial. *)
Lemma trial_no_marker_no_autofocus t w :
  plain_template t = true ->
  Js.occurrences marker (text t) = 0 -> autofocus t = false ->
  exists w' w'',
    trial t w = Ok tt w'
    /\ text_inputs (display w') = [] /\ inputs w' = []
    /\ submit t w' = Ok tt w''
    /\ calls w'' = (calls w ++ [finishTrial {| response := [] |}])%list.
Proof.
  intros Hplain Hn Hf. rewrite trial_result, Hf by done.
  pose proof (getSolutions_length (text t) (case_sensitivity t)) as Hlen.
  rewrite Hn in Hlen. change (1 / 2) with 0 in Hlen. rewrite Hlen.
  unfold submit.
  destruct (getSolutions (text t) (case_sensitivity t)); [|done].
  do 2 eexists. split; [reflexivity|].
  cbn [display inputs replicate]. rewrite surface_inputs, Hn.
  do 2 (split; [done|]).
  unfold check, mbind, M_bind. simpl.
  destruct (check_answers t), (allow_blanks t); simpl; by split.
Qed.

(** C2, on the code: with the default configuration, where the focus is
    asked for, a template without marker makes [trial] throw when it
    reaches for the first input of a surface that has none. *)
Theorem trial_no_marker_default_throws :
  Js.occurrences marker "No blank here." = 0
  /\ autofocus (default_trial "No blank here.") = true
  /\ trial (default_trial "No blank here.") empty_world
     = Throw {| display := [Literal "No blank here."];
                button := Some "OK"; inputs := []; focused := None;
                calls := []; words_drawn := 0; randoms_drawn := 0;
                delays_drawn := 0 |}.
Proof. by vm_compute. Qed.



(** Without the focus, [trial] returns on such a template, and the
    activation of the button throws: [check] finds no field for the blank
    that the parser counts, and makes no call to the host. *)
Lemma markup_submit_throws :
  getSolutions (text quiet_title_example) true = [["x"]]
  /\ trial quiet_title_example empty_world
     = Ok tt {| display := [ElementStart "b"; Literal "t"; ElementEnd "b"];
                button := Some "OK"; inputs := []; focused := None;
                calls := []; words_drawn := 0; randoms_drawn := 0;
                delays_drawn := 0 |}
  /\ submit quiet_title_example
       (world_of (trial quiet_title_example empty_world))
     = Throw (world_of (trial quiet_title_example empty_world)).
Proof. by vm_compute. Qed.



End TrialFacts.

(** ** Case folding *)

Section CaseFacts.

(** Without case sensitivity the accepted answers are in lower case. *)
Lemma alternatives_lower element a :
  a ∈ alternatives false element -> Js.toLowerCase a = a.
Proof.
  unfold alternatives. rewrite trim_lower, split_lower.
  intros (a0 & -> & _)%list_elem_of_fmap. apply toLowerCase_idem.
Qed.











End CaseFacts.

(** ** The simulated responder *)

Section PickFacts.

Lemma same_page_refl w : same_page w w.
Proof. by repeat split. Qed.

Lemma same_page_trans w1 w2 w3 :
  same_page w1 w2 -> same_page w2 w3 -> same_page w1 w3.
Proof.
  unfold same_page. intros (?&?&?&?&?&?) (?&?&?&?&?&?).
  repeat split; congruence.
Qed.

Lemma free_blanks_cons wordList rest :
  length (free_blanks (wordList :: rest))
  = (if Js.includes wordList "" then 1 else 0) + length (free_blanks rest).
Proof.
  unfold free_blanks. destruct (Js.includes wordList "") eqn:E.
  - rewrite filter_cons_True; [done|]. simpl. by rewrite E.
  - rewrite filter_cons_False; [done|]. simpl. rewrite E. auto.
Qed.

Lemma free_blanks_le solutions :
  length (free_blanks solutions) <= length solutions.
Proof. apply length_filter. Qed.

(** [Math.floor(r * length)] is an index of the list, for a number that
    [Math.random] returns. *)
Lemma pick_in_range (wordList : list string) r :
  wordList <> [] ->
  (Z.of_nat (length wordList) < 2 ^ 53)%Z ->
  Js.unit_number r = true ->
  exists i a,
    Js.floor_index (Js.times r (Js.of_length (length wordList))) = Some i
    /\ wordList !! i = Some a.
Proof.
  intros Hne Hlen Hr.
  destruct (floor_times_below r (length wordList) Hr) as (i & Hi & Hlt);
    [destruct wordList; simpl; [done|lia]|done|].
  destruct (lookup_lt_is_Some_2 wordList i Hlt) as [a Ha].
  by exists i, a.
Qed.

(** The product is the one of doubles: for the double next below 4/7
    and a list of seven, the exact product is below 4, the rounded one is
    4, and the index is 4. *)
Lemma pick_index_rounds :
  Js.unit_number (S754_finite false 5146971002709138 (-53)) = true
  /\ (number_value 5146971002709138 (-53) * 7 < 4)%Q
  /\ pick_index ["a"; "b"; "c"; "d"; "e"; "f"; "g"]
       (S754_finite false 5146971002709138 (-53)) = Some 4.
Proof. by vm_compute. Qed.

(** The sums are those of doubles: a delay of 1 added to a time stamp of
    [2 ^ 53] leaves it as it is. *)
Lemma plus_rounds :
  Js.plus (binary_normalize 53 1024 (2 ^ 53) 0 false) (Js.of_length 1)
  = binary_normalize 53 1024 (2 ^ 53) 0 false.
Proof. by vm_compute. Qed.

End PickFacts.

Section BlankChoice.

Variable randomWords : nat -> string.
Variable random : nat -> Js.number.

(** C3, amended: for each blank, a word of the word service is drawn
    exactly when the accepted answers of the blank include the empty
    string, alone or among others; when they do not, no word is drawn, one
    number [r] is drawn from [Math.random], and the response is the
    accepted answer at the index [Math.floor(r * length)], the product
    being the one of doubles, which is an index of the list. *)
Theorem simulate_blank_choice wordList w :
  wordList <> [] ->
  (Z.of_nat (length wordList) < 2 ^ 53)%Z ->
  Js.unit_number (random (randoms_drawn w)) = true ->
  exists a w',
    simulate_blank randomWords random wordList w = Ok a w'
    /\ same_page w w'
    /\ (words_drawn w' = S (words_drawn w) <-> "" ∈ wordList)
    /\ ("" ∈ wordList ->
        a = randomWords (words_drawn w)
        /\ randoms_drawn w' = randoms_drawn w)
    /\ ("" ∉ wordList ->
        words_drawn w' = words_drawn w
        /\ randoms_drawn w' = S (randoms_drawn w)
        /\ exists i,
             Js.floor_index
               (Js.times (random (randoms_drawn w))
                  (Js.of_length (length wordList))) = Some i
             /\ wordList !! i = Some a).
Proof.
  intros Hne Hlen Hr. unfold simulate_blank.
  destruct (Js.includes wordList "") eqn:Hinc.
  - apply includes_true in Hinc.
    eexists _, _. split; [reflexivity|]. simpl.
    split; [by repeat split|]. split; [done|]. split; [done|].
    intros Hn. by destruct Hn.
  - apply includes_false in Hinc.
    destruct (pick_in_range wordList _ Hne Hlen Hr) as (i & a & Hi & Ha).
    exists a. eexists. split.
    { unfold mbind, M_bind, draw_random, mret, M_ret, pick, pick_index.
      rewrite Hi. cbn [mbind option_bind]. rewrite Ha. reflexivity. }
    simpl. split; [by repeat split|]. split; [split; [lia|done]|].
    split; [intros H; by destruct Hinc|]. intros _.
    split; [done|]. split; [done|]. by exists i.
Qed.

End BlankChoice.

Section SimulationFacts.

Variable randomWords : nat -> string.
Variable random : nat -> Js.number.
Variable sampleExGaussian : nat -> Js.number.
Variable SimulationOptions : Type.
Variable mergeSimulationData : TrialData -> SimulationOptions -> TrialData.

(** The response to one blank: what is drawn, and what is left as it
    was. *)
Lemma simulate_blank_counts wordList w :
  exists a w',
    simulate_blank randomWords random wordList w = Ok a w'
    /\ same_page w w'
    /\ simulated_answer randomWords random wordList a
    /\ words_drawn w'
       = words_drawn w + (if Js.includes wordList "" then 1 else 0)
    /\ randoms_drawn w'
       = randoms_drawn w + (if Js.includes wordList "" then 0 else 1).
Proof.
  unfold simulate_blank, simulated_answer. destruct (Js.includes wordList "").
  - eexists _, _. split; [reflexivity|]. simpl.
    split; [by repeat split|]. split; [by eexists|]. lia.
  - eexists _, _. split; [reflexivity|]. simpl.
    split; [by repeat split|]. split; [by eexists|]. lia.
Qed.

(** The loop of [create_simulation_data] pushes one response per blank,
    in the order of the blanks. *)
Lemma simulate_responses_counts solutions : forall responses w,
  exists new w',
    simulate_responses randomWords random solutions responses w
    = Ok (responses ++ new)%list w'
    /\ same_page w w'
    /\ Forall2 (simulated_answer randomWords random) solutions new
    /\ words_drawn w' = words_drawn w + length (free_blanks solutions)
    /\ randoms_drawn w' + length (free_blanks solutions)
       = randoms_drawn w + length solutions.
Proof.
  induction solutions as [|wordList rest IH]; intros responses w.
  - exists [], w. rewrite app_nil_r. simpl.
    split; [done|]. split; [apply same_page_refl|]. split; [constructor|lia].
  - destruct (simulate_blank_counts wordList w)
      as (a & w1 & Hrun & Hpage & Ha & Hwords & Hrandoms).
    destruct (IH (responses ++ [a])%list w1)
      as (new & w' & Hrest & Hpage' & Hnew & Hwords' & Hrandoms').
    exists (a :: new), w'. cbn [simulate_responses].
    erewrite bind_Ok by exact Hrun. rewrite Hrest, <- app_assoc.
    split; [done|]. split; [by eapply same_page_trans|].
    split; [by constructor|].
    rewrite free_blanks_cons. cbn [length].
    pose proof (free_blanks_le rest).
    destruct (Js.includes wordList ""); lia.
Qed.

Lemma create_simulation_data_run t simulation_options w :
  let solutions := getSolutions (text t) (case_sensitivity t) in
  exists responses w',
    create_simulation_data randomWords random SimulationOptions
      mergeSimulationData t simulation_options w
    = Ok (mergeSimulationData {| response := responses |} simulation_options) w'
    /\ same_page w w'
    /\ Forall2 (simulated_answer randomWords random) solutions responses
    /\ words_drawn w' = words_drawn w + length (free_blanks solutions)
    /\ randoms_drawn w' + length (free_blanks solutions)
       = randoms_drawn w + length solutions.
Proof.
  intros solutions. unfold create_simulation_data. fold solutions.
  destruct (simulate_responses_counts solutions [] w)
    as (new & w' & Hrun & Hrest).
  exists new, w'. erewrite bind_Ok by exact Hrun. done.
Qed.

(** The data-only simulation: [load_callback], then [finishTrial] with
    the merged responses. *)
Lemma simulate_data_only_run t simulation_options w :
  let solutions := getSolutions (text t) (case_sensitivity t) in
  exists w' responses,
    simulate randomWords random sampleExGaussian SimulationOptions
      mergeSimulationData t data_only simulation_options w = Ok tt w'
    /\ calls w'
       = (calls w ++
          [load_callback;
           finishTrial (mergeSimulationData {| response := responses |}
                          simulation_options)])%list
    /\ Forall2 (simulated_answer randomWords random) solutions responses
    /\ display w' = display w /\ button w' = button w
    /\ inputs w' = inputs w /\ focused w' = focused w
    /\ delays_drawn w' = delays_drawn w.
Proof.
  intros solutions.
  destruct (create_simulation_data_run t simulation_options
              (set_calls (calls w ++ [load_callback])%list w))
    as (responses & w1 & Hrun & Hpage & Hanswers & _).
  destruct Hpage as (Hdisplay & Hbutton & Hinputs & Hfocused & Hcalls & Hdelays).
  eexists _, responses. unfold simulate, simulate_data_only.
  unfold mbind at 1 2, M_bind at 1 2. cbn [call modify].
  erewrite bind_Ok by exact Hrun. cbn [call modify mret M_ret].
  split; [reflexivity|]. cbn [set_calls calls display button inputs focused
    delays_drawn].
  rewrite Hcalls, Hdisplay, Hbutton, Hinputs, Hfocused, Hdelays.
  cbn [set_calls calls display button inputs focused delays_drawn].
  by rewrite <- app_assoc.
Qed.

(** C3, as stated, fails: the accepted answers of the blank of ["%a/%"]
    are ["a"] and the empty string, which is not the list of the empty
    string alone, and the responder draws a word of the word service and
    no number. *)
Lemma simulate_blank_empty_among_several :
  getSolutions "%a/%" true = [["a"; ""]]
  /\ ["a"; ""] <> [""]
  /\ simulate_blank example_words example_random ["a"; ""] empty_world
     = Ok "filler"
         {| display := []; button := None; inputs := []; focused := None;
            calls := []; words_drawn := 1; randoms_drawn := 0;
            delays_drawn := 0 |}.
Proof. by vm_compute. Qed.

(** C7, as stated, fails: the data-only simulation of ["%a /b%"], on the
    draw [0], finishes the trial with the accepted answer ["a "] as it was
    parsed, with the space that precedes the slash: the entry is not
    trimmed. *)
Lemma simulated_answer_not_trimmed :
  getSolutions "%a /b%" true = [["a "; "b"]]
  /\ simulate example_words zero_random example_delays unit example_merge
       (default_trial "%a /b%") data_only tt empty_world
     = Ok tt {| display := []; button := None; inputs := [];
                focused := None;
                calls := [load_callback;
                          finishTrial {| response := ["a "] |}];
                words_drawn := 0; randoms_drawn := 1; delays_drawn := 0 |}
  /\ Js.trim "a " = "a"
  /\ "a " <> Js.trim "a ".
Proof. by vm_compute. Qed.

(** C7, amended: a trial that finishes delivers one payload.  On a page
    with one field per blank, one activation of the button makes one call
    to the host, and when that call is [finishTrial] its payload is a
    response with one entry per blank of the template, the entry [i] being
    the value of the field [i], trimmed, and folded to lower case before
    when case is not significant.  The data-only simulation calls
    [finishTrial] once, after [load_callback], with what the host merges
    of the simulation options and of a response with one entry per blank:
    a word of the word service for a blank whose accepted answers include
    the empty string, and if not the accepted answer, as it was parsed, at
    the index drawn. *)
Theorem finish_payload t simulation_options w :
  let solutions := getSolutions (text t) (case_sensitivity t) in
  (length (inputs w) = length solutions ->
   exists w' e,
     submit t w = Ok tt w'
     /\ calls w' = (calls w ++ [e])%list
     /\ forall d, e = finishTrial d ->
          length (response d) = length solutions
          /\ forall i field,
               inputs w !! i = Some field ->
               response d !! i
               = Some (if case_sensitivity t then Js.trim (value field)
                       else Js.trim (Js.toLowerCase (value field))))
  /\ (exists w' responses,
        simulate randomWords random sampleExGaussian SimulationOptions
          mergeSimulationData t data_only simulation_options w = Ok tt w'
        /\ calls w'
           = (calls w ++
              [load_callback;
               finishTrial (mergeSimulationData {| response := responses |}
                              simulation_options)])%list
        /\ length responses = length solutions
        /\ forall i (wordList : list string) (a : string),
             solutions !! i = Some wordList ->
             responses !! i = Some a ->
             if Js.includes wordList ""
             then exists k, a = randomWords k
             else exists k,
                    a = default ""
                          (Js.floor_index
                             (Js.times (random k)
                                (Js.of_length (length wordList)))
                           ≫= (wordList !!.))).
Proof.
  intros solutions. split.
  - intros Hlen.
    destruct (submit_Ok t w Hlen) as (w' & Hrun & Hcalls & _).
    eexists w', _. split; [done|]. split; [exact Hcalls|].
    intros d Hd. fold solutions in Hd.
    destruct (gates_fail t solutions (answers_of t (inputs w)));
      [done|]. injection Hd as <-. cbn [response].
    split; [by rewrite answers_of_length|].
    intros i field Hfield. unfold answers_of.
    by rewrite list_lookup_fmap, Hfield.
  - destruct (simulate_data_only_run t simulation_options w)
      as (w' & responses & Hrun & Hcalls & Hanswers & _).
    exists w', responses. split; [done|]. split; [done|].
    split; [symmetry; by eapply Forall2_length|].
    intros i wordList a Hsol Ha.
    exact (Forall2_lookup_lr _ _ _ _ _ _ Hanswers Hsol Ha).
Qed.

(** C8, on the code: in the visual simulation of a template without
    marker, with the default configuration, [trial] throws on the focus
    and nothing is scheduled: no [fillTextInput], no [clickTarget]. *)
Theorem simulate_visual_no_marker_default_throws :
  simulate example_words example_random example_delays unit example_merge
    (default_trial "No blank here.") visual tt empty_world
  = Throw {| display := [Literal "No blank here."];
             button := Some "OK"; inputs := []; focused := None;
             calls := []; words_drawn := 0; randoms_drawn := 0;
             delays_drawn := 0 |}.
Proof. by vm_compute. Qed.

End SimulationFacts.

Lemma simulate_blank_choice_witness :
  exists a w',
    simulate_blank example_words example_random ["cloze"; "jspsych"] empty_world
    = Ok a w'
    /\ ["cloze"; "jspsych"] !! 1 = Some a.
Proof.
  destruct (simulate_blank_choice example_words example_random
              ["cloze"; "jspsych"] empty_world)
    as (a & w' & Hrun & _ & _ & _ & Hpick);
    [discriminate|reflexivity|reflexivity|].
  exists a, w'. split; [exact Hrun|].
  destruct Hpick as (_ & _ & i & Hi & Ha).
  - intros H. apply list_elem_of_In in H. simpl in H.
    destruct H as [H|[H|[]]]; discriminate H.
  - vm_compute in Hi. injection Hi as <-. exact Ha.
Defined.

Lemma finish_payload_witness :
  (exists w' e,
     submit (default_trial "%a% and %%")
       (type_into 0 " a" (world_of (trial (default_trial "%a% and %%") empty_world)))
     = Ok tt w'
     /\ calls w' = [e]
     /\ forall d, e = finishTrial d ->
          length (response d) = 2 /\ response d !! 0 = Some "a")
  /\ (exists w' responses,
        simulate example_words example_random example_delays unit example_merge
          (default_trial "%a% and %%") data_only tt
          (type_into 0 " a" (world_of (trial (default_trial "%a% and %%") empty_world)))
        = Ok tt w'
        /\ calls w' = [load_callback; finishTrial {| response := responses |}]
        /\ length responses = 2).
Proof.
  destruct (finish_payload example_words example_random example_delays unit
              example_merge (default_trial "%a% and %%") tt
              (type_into 0 " a"
                 (world_of (trial (default_trial "%a% and %%") empty_world))))
    as [Hsubmit Hheadless].
  split.
  - destruct Hsubmit as (w' & e & Hrun & Hcalls & Hpayload); [reflexivity|].
    exists w', e. split; [exact Hrun|]. split; [exact Hcalls|].
    intros d Hd. destruct (Hpayload d Hd) as [Hlen Hentries].
    split; [exact Hlen|].
    apply (Hentries 0 {| value := " a"; color := "" |}). reflexivity.
  - destruct Hheadless as (w' & responses & Hrun & Hcalls & Hlen & _).
    exists w', responses. split; [exact Hrun|]. split; [exact Hcalls|exact Hlen].
Defined.

(** * Further properties of the plugin *)

(** ** The parser, continued *)

Section ParserMore.

Lemma alternatives_fold element :
  alternatives false element = Js.toLowerCase <$> alternatives true element.
Proof. unfold alternatives. by rewrite trim_lower, split_lower. Qed.

(** X1: the accepted answers parsed without case sensitivity are those
    parsed with it, each folded to lower case: the flag changes the case of
    the alternatives and neither their number nor their order. *)
Theorem getSolutions_fold text :
  getSolutions text false
  = (fun solution : list string => Js.toLowerCase <$> solution)
    <$> getSolutions text true.
Proof.
  apply list_eq. intros k.
  rewrite list_lookup_fmap, !getSolutions_lookup.
  destruct (Js.split marker text !! (2 * k + 1)) as [element|]; [|done].
  change (Some (alternatives false element)
          = Some (Js.toLowerCase <$> alternatives true element)).
  by rewrite alternatives_fold.
Qed.

Lemma split_pieces_le c sep s :
  Forall (fun piece => Js.occurrences c piece <= Js.occurrences c s)
    (Js.split sep s).
Proof.
  induction s as [|a s IH]; simpl.
  - by repeat constructor.
  - destruct (Ascii.eqb a sep).
    + constructor; [simpl; lia|].
      eapply Forall_impl; [exact IH|]. intros piece H. simpl in *. lia.
    + destruct (Js.split sep s) as [|piece pieces].
      * repeat constructor. simpl. lia.
      * apply Forall_cons in IH as [Hp Hps]. constructor; [simpl; lia|].
        eapply Forall_impl; [exact Hps|]. intros q H. simpl in *. lia.
Qed.

Lemma split_pieces_no_separator sep s :
  Forall (fun piece => Js.occurrences sep piece = 0) (Js.split sep s).
Proof.
  induction s as [|a s IH]; simpl.
  - by repeat constructor.
  - destruct (Ascii.eqb a sep) eqn:Ha.
    + by constructor.
    + destruct (Js.split sep s) as [|piece pieces].
      * repeat constructor. simpl. by rewrite Ha.
      * apply Forall_cons in IH as [Hp Hps]. constructor; [|done].
        simpl. by rewrite Ha.
Qed.

Lemma trimStart_le c s :
  Js.occurrences c (Js.trimStart s) <= Js.occurrences c s.
Proof.
  induction s as [|a s IH]; simpl; [done|].
  destruct (Js.is_space a); simpl; lia.
Qed.

Lemma trimEnd_le c s :
  Js.occurrences c (Js.trimEnd s) <= Js.occurrences c s.
Proof.
  induction s as [|a s IH]; simpl; [done|].
  destruct (Js.trimEnd s); [destruct (Js.is_space a)|]; simpl in *; lia.
Qed.

Lemma trim_le c s : Js.occurrences c (Js.trim s) <= Js.occurrences c s.
Proof.
  unfold Js.trim. etrans; [apply trimEnd_le|apply trimStart_le].
Qed.

Lemma lower_char_marker c :
  Ascii.eqb (Js.lower_char c) marker = Ascii.eqb c marker.
Proof. by destruct c as [[] [] [] [] [] [] [] []]. Qed.

Lemma toLowerCase_markers s :
  Js.occurrences marker (Js.toLowerCase s) = Js.occurrences marker s.
Proof.
  induction s as [|a s IH]; simpl; [done|]. by rewrite lower_char_marker, IH.
Qed.

(** X2: no accepted answer holds a slash or a percent sign, whatever the
    template and the flag: the two characters are taken as separators
    wherever they stand, so that an answer with one of them in it cannot be
    declared. *)
Theorem getSolutions_no_separator text cs :
  Forall (fun solution =>
            Forall (fun a => Js.occurrences separator a = 0
                             /\ Js.occurrences marker a = 0) solution)
    (getSolutions text cs).
Proof.
  apply Forall_lookup. intros k solution. rewrite getSolutions_lookup.
  intros H. apply fmap_Some in H as (element & Helement & ->).
  assert (Js.occurrences marker element = 0) as Hm.
  { pose proof (split_pieces_no_separator marker text) as H.
    rewrite Forall_lookup in H. by apply (H _ _ Helement). }
  unfold alternatives.
  set (content := if cs then Js.trim element
                  else Js.trim (Js.toLowerCase element)).
  assert (Js.occurrences marker content = 0) as Hc.
  { subst content. destruct cs.
    - pose proof (trim_le marker element). lia.
    - pose proof (trim_le marker (Js.toLowerCase element)) as H.
      rewrite toLowerCase_markers in H. lia. }
  replace (if cs then Js.split separator (Js.trim element)
           else Js.split separator (Js.trim (Js.toLowerCase element)))
    with (Js.split separator content) by (subst content; by destruct cs).
  pose proof (split_pieces_no_separator separator content) as H1.
  pose proof (split_pieces_le marker separator content) as H2.
  rewrite Forall_lookup in H1, H2. apply Forall_lookup. intros j a Ha.
  split; [by apply (H1 _ _ Ha)|]. specialize (H2 _ _ Ha). simpl in H2. lia.
Qed.

End ParserMore.

(** ** Normalised answers *)

Section NormalizeFacts.

Lemma trimEnd_idem s : Js.trimEnd (Js.trimEnd s) = Js.trimEnd s.
Proof.
  induction s as [|c s IH]; simpl; [done|].
  destruct (Js.trimEnd s) as [|b r] eqn:E.
  - destruct (Js.is_space c) eqn:Hc; simpl; [done|]. by rewrite Hc.
  - simpl in IH. simpl. by rewrite IH.
Qed.

Lemma trimEnd_head c s :
  Js.is_space c = false ->
  exists r, Js.trimEnd (String c s) = String c r.
Proof.
  intros Hc. simpl. destruct (Js.trimEnd s); rewrite ?Hc; by eexists.
Qed.

Lemma trimStart_head s :
  Js.trimStart s = ""
  \/ exists c r, Js.trimStart s = String c r /\ Js.is_space c = false.
Proof.
  induction s as [|c s IH]; simpl; [by left|].
  destruct (Js.is_space c) eqn:Hc; [done|]. right. by exists c, s.
Qed.

Lemma trim_idem s : Js.trim (Js.trim s) = Js.trim s.
Proof.
  unfold Js.trim.
  destruct (trimStart_head s) as [->|(c & r & -> & Hc)]; [done|].
  destruct (trimEnd_head c r Hc) as [r' E]. rewrite E.
  cbn [Js.trimStart]. rewrite Hc, <- E. apply trimEnd_idem.
Qed.

Lemma trimStart_empty s : Js.trimStart s = "" <-> all_space s = true.
Proof.
  induction s as [|c s IH]; simpl; [done|].
  destruct (Js.is_space c); simpl; [done|]. split; discriminate.
Qed.

Lemma trim_empty s : Js.trim s = "" <-> all_space s = true.
Proof.
  rewrite <- trimStart_empty. unfold Js.trim.
  destruct (trimStart_head s) as [->|(c & r & -> & Hc)]; [done|].
  destruct (trimEnd_head c r Hc) as [r' ->]. split; discriminate.
Qed.

Lemma normalize_idem t v : normalize t (normalize t v) = normalize t v.
Proof.
  unfold normalize. destruct (case_sensitivity t); [apply trim_idem|].
  by rewrite !trim_lower, trim_idem, toLowerCase_idem.
Qed.

Lemma normalize_empty t v : normalize t v = "" <-> all_space v = true.
Proof.
  unfold normalize. destruct (case_sensitivity t); [apply trim_empty|].
  rewrite trim_lower, <- trim_empty.
  destruct (Js.trim v); simpl; split; (done || discriminate).
Qed.

(** X3: the answers [check] records are in normal form: on a page with
    one field per blank, every entry of a response handed to [finishTrial]
    is what [check] would make of it again, its own trim and, without
    case sensitivity, its own lower-case form; typed back into the fields,
    a recorded response is recorded as it is. *)
Theorem response_normal_form t w w' d :
  length (inputs w) = length (getSolutions (text t) (case_sensitivity t)) ->
  submit t w = Ok tt w' ->
  calls w' = (calls w ++ [finishTrial d])%list ->
  Forall (fun a => normalize t a = a /\ Js.trim a = a
                   /\ (case_sensitivity t = false -> Js.toLowerCase a = a))
    (response d).
Proof.
  intros Hlen Hrun Hcalls.
  destruct (submit_Ok t w Hlen) as (w1 & Hrun1 & Hcalls1 & _).
  rewrite Hrun in Hrun1. injection Hrun1 as <-.
  rewrite Hcalls in Hcalls1. apply app_inv_head in Hcalls1.
  destruct (gates_fail _ _ _); [done|]. injection Hcalls1 as ->.
  cbn [response]. unfold answers_of. apply Forall_fmap, Forall_true.
  intros field. cbn. split; [apply normalize_idem|].
  unfold normalize. destruct (case_sensitivity t).
  - split; [apply trim_idem|done].
  - split; [apply trim_idem|]. intros _.
    by rewrite trim_lower, toLowerCase_idem.
Qed.

Lemma response_normal_form_witness :
  Forall (fun a => normalize case_example a = a /\ Js.trim a = a
                   /\ (case_sensitivity case_example = false ->
                       Js.toLowerCase a = a))
    ["jspsych"].
Proof.
  apply (response_normal_form case_example
           (type_into 0 " JsPsych  " (world_of (trial case_example empty_world)))
           (world_of (submit case_example
                        (type_into 0 " JsPsych  "
                           (world_of (trial case_example empty_world)))))
           {| response := ["jspsych"] |});
    reflexivity.
Defined.



End NormalizeFacts.

(** ** The trial and its submits *)

Section SubmitFacts.

Lemma type_into_frame i v w :
  length (inputs (type_into i v w)) = length (inputs w)
  /\ calls (type_into i v w) = calls w
  /\ display (type_into i v w) = display w.
Proof.
  unfold type_into. destruct (inputs w !! i); [|done].
  simpl. by rewrite length_insert.
Qed.

Lemma type_all_frame typed w :
  length (inputs (type_all typed w)) = length (inputs w)
  /\ calls (type_all typed w) = calls w
  /\ display (type_all typed w) = display w.
Proof.
  induction typed as [|p typed IH]; simpl; [done|].
  destruct (type_into_frame p.1 p.2 (type_all typed w)) as (-> & -> & ->).
  exact IH.
Qed.

(** X5: on a template of plain text the parser and the renderer agree on
    the blanks, so that [check] finds a field for every solution: once
    [trial] has rendered the surface, whatever is typed into the fields,
    an activation of the button does not throw and makes exactly one call
    to the host, to [mistake_fn] or to [finishTrial] with the values of the
    fields, trimmed, and folded to lower case before when case is not
    significant. *)
Theorem submit_after_trial t w w1 typed :
  plain_template t = true ->
  trial t w = Ok tt w1 ->
  exists w2 e,
    submit t (type_all typed w1) = Ok tt w2
    /\ calls w2 = (calls w ++ [e])%list
    /\ (e = mistake_fn
        \/ e = finishTrial
                 {| response :=
                      (fun field =>
                         if case_sensitivity t then Js.trim (value field)
                         else Js.trim (Js.toLowerCase (value field)))
                      <$> inputs (type_all typed w1) |}).
Proof.
  intros Hplain Hrender.
  destruct (trial_inputs_length t w w1 Hplain Hrender) as (Hlen & Hcalls & _).
  destruct (type_all_frame typed w1) as (Hlen' & Hcalls' & _).
  destruct (submit_Ok t (type_all typed w1)) as (w2 & Hrun & Hcalls2 & _);
    [congruence|].
  eexists w2, _. split; [done|].
  split; [by rewrite Hcalls2, Hcalls', Hcalls|].
  destruct (gates_fail _ _ _); [by left|by right].
Qed.

Lemma submit_after_trial_witness :
  exists w2 e,
    submit checked_example
      (type_all [(1, "d"); (0, " b ")]
         (world_of (trial checked_example empty_world)))
    = Ok tt w2
    /\ calls w2 = [e]
    /\ (e = mistake_fn \/ e = finishTrial {| response := ["b"; "d"] |}).
Proof.
  apply (submit_after_trial checked_example empty_world
           (world_of (trial checked_example empty_world))
           [(1, "d"); (0, " b ")] eq_refl eq_refl).
Defined.

Lemma flag_from_lookup_ge t solutions : forall i fs j,
  i + length solutions <= j -> flag_from t i solutions fs !! j = fs !! j.
Proof.
  induction solutions as [|solution rest IH]; intros i fs j Hj; simpl; [done|].
  simpl in Hj. rewrite IH by lia. apply list_lookup_alter_ne. lia.
Qed.

Lemma flag_flag t solution field :
  flag t solution (flag t solution field) = flag t solution field.
Proof. done. Qed.

Lemma flag_from_idem t solutions fs :
  flag_from t 0 solutions (flag_from t 0 solutions fs)
  = flag_from t 0 solutions fs.
Proof.
  apply list_eq. intros j.
  destruct (solutions !! j) as [solution|] eqn:Hs.
  - pose proof (flag_from_lookup t solutions 0) as H. simpl in H.
    rewrite !(H _ _ _ Hs). by destruct (fs !! j).
  - apply lookup_ge_None in Hs. by rewrite !flag_from_lookup_ge by (simpl; lia).
Qed.

Lemma values_flag_from t solutions : forall i fs,
  value <$> flag_from t i solutions fs = value <$> fs.
Proof.
  induction solutions as [|solution rest IH]; intros i fs; simpl; [done|].
  rewrite IH. apply list_eq. intros j.
  rewrite !list_lookup_fmap, list_lookup_alter.
  case_decide; [subst|done]. by destruct (fs !! j).
Qed.

(** X6: an activation of the button writes colours only: the values of
    the fields, the surface, the button and the focus are as before.  So a
    second activation over untouched fields makes the same call to the
    host as the first and leaves the fields as the first left them. *)
Theorem submit_twice t w w1 :
  length (inputs w) = length (getSolutions (text t) (case_sensitivity t)) ->
  submit t w = Ok tt w1 ->
  (value <$> inputs w1 = value <$> inputs w
   /\ display w1 = display w /\ button w1 = button w /\ focused w1 = focused w)
  /\ exists w2 e,
       submit t w1 = Ok tt w2
       /\ calls w1 = (calls w ++ [e])%list
       /\ calls w2 = (calls w ++ [e; e])%list
       /\ inputs w2 = inputs w1.
Proof.
  intros Hlen Hrun. unfold submit in *.
  rewrite check_Ok in Hrun by done. injection Hrun as <-. cbn [inputs display
    button focused calls].
  set (solutions := getSolutions (text t) (case_sensitivity t)) in *.
  set (fields := if check_answers t
                 then flag_from t 0 solutions (inputs w) else inputs w).
  assert (Hanswers : answers_of t fields = answers_of t (inputs w)).
  { subst fields. destruct (check_answers t); [|done].
    apply answers_of_flag_from. }
  assert (Hlen1 : length fields = length solutions).
  { subst fields. destruct (check_answers t); [|done].
    by rewrite flag_from_length. }
  split.
  { split; [|done]. subst fields. destruct (check_answers t); [|done].
    apply values_flag_from. }
  eexists _, _. rewrite check_Ok by done. cbn [inputs calls].
  split; [reflexivity|]. split; [reflexivity|]. rewrite Hanswers.
  split; [by rewrite <- app_assoc|].
  subst fields. destruct (check_answers t); [|done]. apply flag_from_idem.
Qed.

Lemma submit_twice_witness :
  exists w2 e,
    submit checked_example
      (world_of (submit checked_example
                   (type_into 0 "x" (world_of (trial checked_example empty_world)))))
    = Ok tt w2
    /\ calls w2 = [e; e].
Proof.
  destruct (submit_twice checked_example
              (type_into 0 "x" (world_of (trial checked_example empty_world)))
              (world_of (submit checked_example
                 (type_into 0 "x" (world_of (trial checked_example empty_world)))))
              eq_refl eq_refl)
    as (_ & w2 & e & Hrun & _ & Hcalls & _).
  exists w2, e. split; [exact Hrun|exact Hcalls].
Defined.







End SubmitFacts.

(** ** The rendered page *)

Section PageFacts.

Lemma text_node_match element :
  text_node element
  = match element with EmptyString => [] | _ => [Literal element] end.
Proof. done. Qed.

Lemma surface_from_imap elements : forall i c,
  surface_from i c elements
  = concat (imap (fun j element =>
                    if Nat.even (i + j) then text_node element
                    else [TextInput
                            (c + (j + (if Nat.odd i then 1 else 0)) / 2)])
              elements).
Proof.
  induction elements as [|e rest IH]; intros i c; [done|].
  cbn [surface_from imap concat]. rewrite Nat.add_0_r.
  rewrite <- (Nat.negb_odd i).
  destruct (Nat.odd i) eqn:Hi; cbn [negb app]; rewrite IH;
    rewrite Nat.odd_succ, <- (Nat.negb_odd i), Hi; cbn [negb].
  - replace (c + (0 + 1) / 2) with c by lia. do 2 f_equal.
    apply imap_ext. intros j x _. cbn [compose].
    replace (S i + j) with (i + S j) by lia.
    replace (S c + (j + 0) / 2) with (c + (S j + 1) / 2) by lia. done.
  - do 2 f_equal. apply imap_ext. intros j x _. cbn [compose].
    replace (S i + j) with (i + S j) by lia.
    replace ((j + 1) / 2) with ((S j + 0) / 2) by lia. done.
Qed.

(** X9: the surface [trial] renders of a template of plain text follows
    the template: for each element of the split template in its order, the
    element at an even index, verbatim, as a text (and nothing when it is
    empty), and at the odd index [j] the input with the id [input<j/2>];
    every field is empty and uncoloured, whatever the page held before,
    the button carries the configured label, and the focus is on the first
    input exactly when it was asked for. *)
Theorem trial_layout t w w' :
  plain_template t = true ->
  trial t w = Ok tt w' ->
  display w'
  = concat (imap (fun j element =>
                    if Nat.even j
                    then match element with
                         | EmptyString => []
                         | _ => [Literal element]
                         end
                    else [TextInput (j / 2)])
              (Js.split marker (text t)))
  /\ inputs w'
     = replicate (length (getSolutions (text t) (case_sensitivity t))) fresh_field
  /\ button w' = Some (button_text t)
  /\ focused w' = (if autofocus t then Some 0 else None).
Proof.
  intros Hplain Hrender.
  destruct (trial_page t w w' Hplain Hrender)
    as (-> & Hbutton & Hinputs & Hfocus & _).
  split; [|done]. rewrite surface_from_imap. f_equal.
  apply imap_ext. intros j x _. cbn [Nat.add]. change (Nat.odd 0) with false.
  cbv iota. by rewrite Nat.add_0_r, text_node_match.
Qed.

Lemma trial_layout_witness :
  display (world_of (trial (default_trial "This is a %cloze% text.") empty_world))
  = [Literal "This is a "; TextInput 0; Literal " text."].
Proof.
  apply (trial_layout (default_trial "This is a %cloze% text.") empty_world
           (world_of (trial (default_trial "This is a %cloze% text.") empty_world))
           eq_refl eq_refl).
Defined.

(** X10: on a template of plain text, [trial] throws exactly when the
    focus is asked for and the template has no marker; in every other
    case it returns. *)
Theorem trial_throws_iff t w :
  plain_template t = true ->
  ((exists w', trial t w = Throw w')
   <-> autofocus t = true /\ Js.occurrences marker (text t) = 0)
  /\ ((exists w', trial t w = Ok tt w')
      <-> autofocus t = false \/ 1 <= Js.occurrences marker (text t)).
Proof.
  intros Hplain. rewrite trial_result by done.
  pose proof (getSolutions_length (text t) (case_sensitivity t)) as Hlen.
  destruct (autofocus t).
  - destruct (length (getSolutions _ _)) as [|n].
    + split.
      * split; [intros _; split; [done|lia]|by eexists].
      * split; [by intros [w' H]|]. intros [H|H]; [done|lia].
    + split.
      * split; [by intros [w' H]|]. intros [_ H]. rewrite H in Hlen. done.
      * split; [intros _; right; lia|by eexists].
  - split.
    + split; [by intros [w' H]|]. by intros [H _].
    + split; [by left|by eexists].
Qed.

Lemma trial_throws_iff_witness :
  (exists w', trial (default_trial "No blank here.") empty_world = Throw w')
  <-> autofocus (default_trial "No blank here.") = true
      /\ Js.occurrences marker (text (default_trial "No blank here.")) = 0.
Proof.
  apply (trial_throws_iff (default_trial "No blank here.") empty_world).
  reflexivity.
Defined.

Lemma normalize_nil t : normalize t "" = "".
Proof. unfold normalize. by destruct (case_sensitivity t). Qed.

Lemma gate_correct_replicate solutions :
  gate_correct solutions (replicate (length solutions) "")
  = forallb (fun solution => Js.includes solution "") solutions.
Proof.
  induction solutions as [|solution rest IH]; [done|].
  cbn [length replicate]. by rewrite gate_correct_cons, IH.
Qed.

Lemma gate_filled_replicate n :
  gate_filled (replicate n "") = Nat.eqb n 0.
Proof. by destruct n. Qed.

(** X11: the button pressed on the page as [trial] rendered it from a
    template of plain text, all fields empty: the activation calls
    [mistake_fn] when answers are checked and some blank does not accept
    the empty answer, or when blanks are not allowed and the template has
    a blank; if not, it finishes the trial with one empty string per
    blank. *)
Theorem submit_untouched t w w1 :
  plain_template t = true ->
  trial t w = Ok tt w1 ->
  exists w2,
    submit t w1 = Ok tt w2
    /\ calls w2
       = (calls w ++
          [if (check_answers t
               && negb (forallb (fun solution => Js.includes solution "")
                          (getSolutions (text t) (case_sensitivity t))))
              || (negb (allow_blanks t)
                  && negb (Nat.eqb
                             (length (getSolutions (text t) (case_sensitivity t)))
                             0))
           then mistake_fn
           else finishTrial
                  {| response :=
                       replicate
                         (length (getSolutions (text t) (case_sensitivity t)))
                         "" |}])%list.
Proof.
  intros Hplain Hrender.
  destruct (trial_page t w w1 Hplain Hrender) as (_ & _ & Hinputs & _ & Hcalls & _).
  set (solutions := getSolutions (text t) (case_sensitivity t)) in *.
  destruct (submit_Ok t w1) as (w2 & Hrun & Hcalls2 & _).
  { fold solutions. by rewrite Hinputs, length_replicate. }
  exists w2. split; [done|]. rewrite Hcalls2, Hcalls. fold solutions.
  replace (answers_of t (inputs w1)) with (replicate (length solutions) "").
  - unfold gates_fail. by rewrite gate_correct_replicate, gate_filled_replicate.
  - rewrite Hinputs. unfold answers_of. rewrite fmap_replicate. simpl.
    by rewrite normalize_nil.
Qed.

Lemma submit_untouched_witness :
  exists w2,
    submit (default_trial "This is a %cloze% text. Another %%.")
      (world_of (trial (default_trial "This is a %cloze% text. Another %%.")
                   empty_world))
    = Ok tt w2
    /\ calls w2 = [finishTrial {| response := [""; ""] |}].
Proof.
  apply (submit_untouched (default_trial "This is a %cloze% text. Another %%.")
           empty_world
           (world_of (trial (default_trial "This is a %cloze% text. Another %%.")
                        empty_world))
           eq_refl eq_refl).
Defined.

End PageFacts.

(** ** The simulated responder, continued *)

Section BlankAccepted.

Variable randomWords : nat -> string.
Variable random : nat -> Js.number.

(** X15: the simulated answer to a blank with fixed answers passes the
    correctness gate of that blank when no accepted answer of the blank
    has white space at its ends or a line break: for a number that
    [Math.random] returns, the responder picks one of the accepted
    answers, a text input keeps it as it is, and [check], which trims it,
    and folds it to lower case before when case is not significant, makes
    of it what it is. *)
Theorem simulated_answer_accepted t i wordList w :
  getSolutions (text t) (case_sensitivity t) !! i = Some wordList ->
  "" ∉ wordList ->
  Forall (fun a => Js.trim a = a /\ Html.strip_newlines a = a) wordList ->
  (Z.of_nat (length wordList) < 2 ^ 53)%Z ->
  Js.unit_number (random (randoms_drawn w)) = true ->
  exists a w',
    simulate_blank randomWords random wordList w = Ok a w'
    /\ a ∈ wordList
    /\ Js.includes wordList
         (if case_sensitivity t then Js.trim (Html.strip_newlines a)
          else Js.trim (Js.toLowerCase (Html.strip_newlines a))) = true.
Proof.
  intros Hsol Hfixed Htrim Hlen Hr.
  rewrite getSolutions_lookup in Hsol.
  apply fmap_Some in Hsol as (element & _ & ->).
  set (wordList := alternatives (case_sensitivity t) element) in *.
  destruct (pick_in_range wordList _ (alternatives_not_nil _ _) Hlen Hr)
    as (j & a & Hj & Ha).
  assert (a ∈ wordList) as Hin by (by eapply list_elem_of_lookup_2).
  unfold simulate_blank.
  replace (Js.includes wordList "") with false
    by (symmetry; by apply includes_false).
  eexists a, _. split.
  { unfold mbind, M_bind, draw_random, mret, M_ret, pick, pick_index.
    rewrite Hj. cbn [mbind option_bind]. by rewrite Ha. }
  split; [done|]. apply includes_true.
  rewrite Forall_forall in Htrim. destruct (Htrim a Hin) as [Ht ->].
  replace (if case_sensitivity t then Js.trim a
           else Js.trim (Js.toLowerCase a)) with a; [done|].
  destruct (case_sensitivity t) eqn:Hcs.
  - by symmetry.
  - rewrite trim_lower, Ht. symmetry.
    by apply (alternatives_lower element).
Qed.

End BlankAccepted.

Section SimulationMore.

Variable randomWords : nat -> string.
Variable random : nat -> Js.number.
Variable sampleExGaussian : nat -> Js.number.
Variable SimulationOptions : Type.
Variable mergeSimulationData : TrialData -> SimulationOptions -> TrialData.

(** X12: the data-only simulation finishes every trial, whatever its
    template and its flags: it calls [load_callback], then [finishTrial]
    with the simulated responses, one per blank, merged with the
    simulation options, and nothing else; it renders nothing, touches no
    field, draws no delay and does not go through the gates of [check]. *)
Theorem simulate_data_only_finishes t simulation_options w :
  exists w' responses,
    simulate randomWords random sampleExGaussian SimulationOptions
      mergeSimulationData t data_only simulation_options w = Ok tt w'
    /\ calls w'
       = (calls w ++
          [load_callback;
           finishTrial (mergeSimulationData {| response := responses |}
                          simulation_options)])%list
    /\ length responses = length (getSolutions (text t) (case_sensitivity t))
    /\ display w' = display w /\ button w' = button w
    /\ inputs w' = inputs w /\ focused w' = focused w
    /\ delays_drawn w' = delays_drawn w.
Proof.
  destruct (simulate_data_only_run randomWords random sampleExGaussian
              SimulationOptions mergeSimulationData t simulation_options w)
    as (w' & responses & Hrun & Hcalls & Hanswers & Hpage).
  exists w', responses. split; [done|]. split; [done|].
  split; [symmetry; by eapply Forall2_length|done].
Qed.

(** X13: the responder draws once per blank: a word of the word service
    for each blank whose accepted answers include the empty string, a
    number of [Math.random] for each other blank, and no delay. *)
Theorem create_simulation_data_draws t simulation_options w :
  let solutions := getSolutions (text t) (case_sensitivity t) in
  exists d w',
    create_simulation_data randomWords random SimulationOptions
      mergeSimulationData t simulation_options w = Ok d w'
    /\ words_drawn w' = words_drawn w + length (free_blanks solutions)
    /\ randoms_drawn w' + length (free_blanks solutions)
       = randoms_drawn w + length solutions
    /\ delays_drawn w' = delays_drawn w
    /\ calls w' = calls w.
Proof.
  intros solutions.
  destruct (create_simulation_data_run randomWords random SimulationOptions
              mergeSimulationData t simulation_options w)
    as (responses & w' & Hrun & Hpage & _ & Hwords & Hrandoms).
  destruct Hpage as (_ & _ & _ & _ & Hcalls & Hdelays).
  by eexists _, w'.
Qed.



End SimulationMore.


Lemma simulated_answer_accepted_witness :
  exists a w',
    simulate_blank example_words example_random ["cloze"; "jspsych"] empty_world
    = Ok a w'
    /\ a ∈ ["cloze"; "jspsych"]
    /\ Js.includes ["cloze"; "jspsych"]
         (Js.trim (Js.toLowerCase (Html.strip_newlines a))) = true.
Proof.
  apply (simulated_answer_accepted example_words example_random case_example 0
           ["cloze"; "jspsych"] empty_world).
  - reflexivity.
  - intros H. apply list_elem_of_In in H. simpl in H.
    destruct H as [H|[H|[]]]; discriminate H.
  - repeat constructor.
  - reflexivity.
  - reflexivity.
Defined.

(** ** Case sensitivity as an option *)

Section InsensitiveFacts.

Lemma normalize_insensitive t v :
  normalize (insensitive t) v = Js.toLowerCase (normalize t v).
Proof.
  change (normalize (insensitive t) v) with (Js.trim (Js.toLowerCase v)).
  unfold normalize. rewrite trim_lower.
  destruct (case_sensitivity t); [done|].
  by rewrite toLowerCase_idem.
Qed.

Lemma getSolutions_insensitive t :
  getSolutions (text t) false
  = (fun solution : list string => Js.toLowerCase <$> solution)
    <$> getSolutions (text t) (case_sensitivity t).
Proof.
  apply list_eq. intros k. rewrite list_lookup_fmap, !getSolutions_lookup.
  destruct (Js.split marker (text t) !! (2 * k + 1)) as [element|]; [|done].
  change (Some (alternatives false element)
          = Some (Js.toLowerCase
                    <$> alternatives (case_sensitivity t) element)).
  f_equal. destruct (case_sensitivity t); [apply alternatives_fold|].
  symmetry. etrans; [|apply list_fmap_id]. apply list_fmap_ext.
  intros j a Ha. apply (alternatives_lower element).
  by eapply list_elem_of_lookup_2.
Qed.

Lemma wrong_insensitive t fs :
  some_answer_wrong (getSolutions (text t) false) (answers_of (insensitive t) fs) ->
  some_answer_wrong (getSolutions (text t) (case_sensitivity t)) (answers_of t fs).
Proof.
  intros (i & solution & a & Hsol & Ha & Hwrong).
  rewrite getSolutions_insensitive, list_lookup_fmap in Hsol.
  apply fmap_Some in Hsol as (solution' & Hsol' & ->).
  unfold answers_of in Ha. rewrite list_lookup_fmap in Ha.
  apply fmap_Some in Ha as (field & Hfield & ->).
  exists i, solution', (normalize t (value field)).
  split; [done|]. split; [unfold answers_of; by rewrite list_lookup_fmap, Hfield|].
  intros Hin. apply Hwrong. rewrite normalize_insensitive.
  apply list_elem_of_fmap. by exists (normalize t (value field)).
Qed.

Lemma empty_insensitive t fs :
  some_answer_empty (answers_of (insensitive t) fs) ->
  some_answer_empty (answers_of t fs).
Proof.
  unfold some_answer_empty, answers_of.
  intros (field & H & Hin)%list_elem_of_fmap.
  apply list_elem_of_fmap. exists field. split; [|done].
  symmetry in H. apply normalize_empty in H. symmetry. by apply normalize_empty.
Qed.

(** X16: turning case sensitivity off never turns a passing submit into
    a failing one: on a page with one field per blank, if the activation
    of the button finishes the trial [t], it finishes the trial that
    differs from [t] by its case sensitivity, which is off, and the
    response is the one of [t] folded to lower case. *)
Theorem insensitive_finishes t w w1 d :
  length (inputs w) = length (getSolutions (text t) (case_sensitivity t)) ->
  submit t w = Ok tt w1 ->
  calls w1 = (calls w ++ [finishTrial d])%list ->
  exists w2,
    submit (insensitive t) w = Ok tt w2
    /\ calls w2
       = (calls w ++ [finishTrial {| response := Js.toLowerCase <$> response d |}])%list.
Proof.
  intros Hlen Hrun Hcalls.
  destruct (submit_Ok t w Hlen) as (w1' & Hrun1 & Hcalls1 & _).
  rewrite Hrun in Hrun1. injection Hrun1 as <-.
  rewrite Hcalls in Hcalls1. apply app_inv_head in Hcalls1.
  destruct (gates_fail t _ _) eqn:Hgates; [done|]. injection Hcalls1 as ->.
  destruct (submit_Ok (insensitive t) w) as (w2 & Hrun2 & Hcalls2 & _).
  { cbn [text case_sensitivity insensitive].
    by rewrite getSolutions_insensitive, length_fmap. }
  exists w2. split; [done|]. rewrite Hcalls2.
  cbn [text case_sensitivity insensitive response].
  destruct (gates_fail (insensitive t) _ _) eqn:Hgates2.
  - apply gates_fail_true in Hgates2.
    assert (gates_fail t (getSolutions (text t) (case_sensitivity t))
              (answers_of t (inputs w)) = true) as H; [|congruence].
    apply gates_fail_true. cbn [check_answers allow_blanks insensitive] in Hgates2.
    destruct Hgates2 as [[Hc Hw]|[Hb He]].
    + left. split; [done|]. by apply wrong_insensitive.
    + right. split; [done|]. by apply empty_insensitive.
  - replace (answers_of (insensitive t) (inputs w))
      with (Js.toLowerCase <$> answers_of t (inputs w)); [done|].
    unfold answers_of. rewrite <- list_fmap_compose.
    apply list_fmap_ext. intros j field _. symmetry.
    apply normalize_insensitive.
Qed.

Lemma insensitive_finishes_witness :
  exists w2,
    submit (insensitive checked_example)
      (type_all [(1, "d"); (0, "b")]
         (world_of (trial checked_example empty_world)))
    = Ok tt w2
    /\ calls w2 = [finishTrial {| response := ["b"; "d"] |}].
Proof.
  apply (insensitive_finishes checked_example
           (type_all [(1, "d"); (0, "b")]
              (world_of (trial checked_example empty_world)))
           (world_of (submit checked_example
                        (type_all [(1, "d"); (0, "b")]
                           (world_of (trial checked_example empty_world)))))
           {| response := ["b"; "d"] |});
    reflexivity.
Defined.

End InsensitiveFacts.
